(** * Tenglish converter: a shallow embedding of [app.py] and its properties

    The conversion pipeline of [app.py] (phrase rules, tokenizer, token
    translator, multiword pass, style passes, cleanup) is embedded as Rocq
    functions and the statements of the specification are settled against
    them.

    Data model.
    - A Python [str] is a list of characters, a character being a code
      point below 256 ([ascii]).  [isspace], [lower], [isupper], the class
      [\w] of [re] and case-insensitive matching are Python's on that
      range.
    - A Python [dict] is an association list in insertion order with
      unique keys: [dict_set] overwrites in place or appends, as Python
      does, so that [dict_keys] enumerates keys in Python's order.
    - A Python [set] that is only tested for membership is a list.
    - [telugu_strength] is an unbounded integer ([Z]).
    - The regular expressions of the program are word-bounded literals,
      one-character classes and whitespace runs; each is embedded by the
      function that [re.sub], [re.search] or [re.match] computes for it.
      A replacement passed to [re.sub] is a template; the two templates
      with a backslash go through [expand_template], the others hold no
      backslash and stand for themselves, which is the case of every
      phrase replacement and of every value of the dictionary of the
      builder ([builder_replacements_literal]). *)

From Stdlib Require Import Ascii String ZArith NArith Bool Arith Lia List.
Import ListNotations.

Local Open Scope list_scope.
Local Open Scope bool_scope.

(** ** Strings and characters *)

Definition str := list ascii.

(** String literal of the source. *)
Definition lit (s : string) : str := list_ascii_of_string s.

Definition code (c : ascii) : N := N_of_ascii c.

Definition in_range (lo hi : N) (c : ascii) : bool :=
  (N.leb lo (code c)) && (N.leb (code c) hi).

(** [str.isspace] / [\s]: TAB..CR, FS..US, SPACE, NEL, NBSP. *)
Definition isspace (c : ascii) : bool :=
  in_range 9 13 c || in_range 28 32 c || N.eqb (code c) 133 || N.eqb (code c) 160.

(** [[a-zA-Z]] *)
Definition is_ascii_letter (c : ascii) : bool :=
  in_range 65 90 c || in_range 97 122 c.

(** [[a-zA-Z']] *)
Definition is_letter_or_apostrophe (c : ascii) : bool :=
  is_ascii_letter c || N.eqb (code c) 39.

(** [str.isupper] of a one-character string. *)
Definition isupper (c : ascii) : bool :=
  in_range 65 90 c || in_range 192 214 c || in_range 216 222 c.

(** The lower-case characters whose upper-case form is one character of
    the range. *)
Definition has_upper (c : ascii) : bool :=
  in_range 97 122 c || in_range 224 246 c || in_range 248 254 c.

(** [\w] of [re] on [str]: alphanumeric characters and the underscore. *)
Definition is_word_char (c : ascii) : bool :=
  in_range 48 57 c || is_ascii_letter c || N.eqb (code c) 95
  || N.eqb (code c) 170 || in_range 178 179 c || N.eqb (code c) 181
  || in_range 185 186 c || in_range 188 190 c
  || in_range 192 214 c || in_range 216 246 c || in_range 248 255 c.

(** [[.!?,;:]] *)
Definition is_punct (c : ascii) : bool :=
  existsb (Ascii.eqb c) (lit ".!?,;:").

Definition lower_char (c : ascii) : ascii :=
  if isupper c then ascii_of_N (code c + 32) else c.

(** [str.lower] *)
Definition lower (s : str) : str := map lower_char s.

(** [str.upper] of a one-character string.  The sharp s becomes "SS"; the
    upper-case forms of U+00B5 and U+00FF lie above 255 and those two
    characters are left as they are. *)
Definition upper_char (c : ascii) : str :=
  if has_upper c then [ascii_of_N (code c - 32)]
  else if N.eqb (code c) 223 then lit "SS"
  else [c].

Definition str_eqb (a b : str) : bool :=
  if list_eq_dec ascii_dec a b then true else false.

Definition is_empty (s : str) : bool :=
  match s with [] => true | _ => false end.

Fixpoint dropwhile (p : ascii -> bool) (s : str) : str :=
  match s with
  | [] => []
  | c :: s' => if p c then dropwhile p s' else s
  end.

(** [str.strip] *)
Definition strip (s : str) : str :=
  rev (dropwhile isspace (rev (dropwhile isspace s))).

Definition cons_head (c : ascii) (l : list str) : list str :=
  match l with
  | [] => [[c]]
  | w :: ws => (c :: w) :: ws
  end.

(** [str.split()] without argument: the maximal runs of characters that
    are not whitespace, in order. *)
Fixpoint split (s : str) : list str :=
  match s with
  | [] => []
  | c :: s' =>
      if isspace c then split s'
      else match s' with
           | [] => [[c]]
           | d :: _ => if isspace d then [c] :: split s' else cons_head c (split s')
           end
  end.

(** [sep.join(l)] *)
Fixpoint join (sep : str) (l : list str) : str :=
  match l with
  | [] => []
  | [x] => x
  | x :: rest => x ++ sep ++ join sep rest
  end.

(** [s.endswith(suffix)] *)
Definition endswith (s suffix : str) : bool :=
  (length suffix <=? length s)%nat
  && str_eqb (skipn (length s - length suffix) s) suffix.

(** [sub in s] for strings. *)
Fixpoint prefix_eqb (p s : str) : bool :=
  match p, s with
  | [], _ => true
  | _ :: _, [] => false
  | a :: p', b :: s' => Ascii.eqb a b && prefix_eqb p' s'
  end.

Fixpoint contains (sub s : str) : bool :=
  prefix_eqb sub s ||
  match s with
  | [] => false
  | _ :: s' => contains sub s'
  end.

(** [s.replace(old, new)] for a one-character [old]. *)
Definition replace_char (old : ascii) (new : str) (s : str) : str :=
  flat_map (fun c => if Ascii.eqb c old then new else [c]) s.

(** ** The fragment of [re] that the program uses *)

(** Replacement templates of [re.sub]: a doubled backslash stands for one
    backslash and a backslash followed by a digit 1..9 for that group.
    (No other escape occurs in a template of the program.) *)
Fixpoint expand_template (tpl : str) (groups : list str) : str :=
  match tpl with
  | [] => []
  | b :: rest =>
      if Ascii.eqb b "\"%char then
        match rest with
        | c :: rest' =>
            if Ascii.eqb c "\"%char then "\"%char :: expand_template rest' groups
            else if in_range 49 57 c
                 then nth (N.to_nat (code c - 49)) groups [] ++ expand_template rest' groups
                 else b :: expand_template rest groups
        | [] => [b]
        end
      else b :: expand_template rest groups
  end.

(** [re.sub(r"([cls])", template, s)] for a one-character class with one
    group: every character of the class is a match, its only group is the
    character itself. *)
Definition sub_class_group (cls : ascii -> bool) (template : str) (s : str) : str :=
  flat_map (fun c => if cls c then expand_template template [[c]] else [c]) s.

(** [\b] between two neighbouring positions: exactly one side is a word
    character; outside the string counts as not a word character. *)
Definition opt_word (o : option ascii) : bool :=
  match o with Some c => is_word_char c | None => false end.

Definition boundary (prev next : option ascii) : bool :=
  xorb (opt_word prev) (opt_word next).

(** A pattern character against a subject character, with or without
    [re.IGNORECASE]. *)
Definition char_match (ci : bool) (p c : ascii) : bool :=
  if ci then Ascii.eqb (lower_char p) (lower_char c) else Ascii.eqb p c.

(** The literal [pat] matches at the head of [s] and a [\b] follows;
    [prev] is the character before the current position of the literal. *)
Fixpoint lit_then_boundary (ci : bool) (pat : str) (prev : option ascii) (s : str) : bool :=
  match pat with
  | [] => boundary prev (hd_error s)
  | p :: pat' =>
      match s with
      | [] => false
      | c :: s' => char_match ci p c && lit_then_boundary ci pat' (Some c) s'
      end
  end.

(** [\b pat \b] matches at the head of [s], [prev] being the character
    before. *)
Definition word_lit_at (ci : bool) (pat : str) (prev : option ascii) (s : str) : bool :=
  boundary prev (hd_error s) && lit_then_boundary ci pat prev s.

(** [re.sub(r"\b" + re.escape(pat) + r"\b", rep, s)] for a non-empty
    literal [pat] and a replacement without backslash: matches are found
    left to right and do not overlap.  [skip] counts the characters of the
    current match that are still to be passed over. *)
Fixpoint sub_word_go (ci : bool) (pat rep : str) (skip : nat)
         (prev : option ascii) (s : str) : str :=
  match s with
  | [] => []
  | c :: s' =>
      match skip with
      | S k => sub_word_go ci pat rep k (Some c) s'
      | O =>
          if word_lit_at ci pat prev s
          then rep ++ sub_word_go ci pat rep (length pat - 1) (Some c) s'
          else c :: sub_word_go ci pat rep 0 (Some c) s'
      end
  end.

Definition sub_word (ci : bool) (pat rep : str) (s : str) : str :=
  sub_word_go ci pat rep 0 None s.

(** [re.search(r"\b(a1|a2|...)\b", s)] for literal alternatives. *)
Fixpoint search_word_go (alts : list str) (prev : option ascii) (s : str) : bool :=
  existsb (fun a => word_lit_at false a prev s) alts ||
  match s with
  | [] => false
  | c :: s' => search_word_go alts (Some c) s'
  end.

Definition search_word (alts : list str) (s : str) : bool :=
  search_word_go alts None s.

(** [re.search(r"[a-zA-Z']\s*$", s)]: some letter or apostrophe is
    followed by whitespace only up to the end of the string. *)
Fixpoint search_letter_at_end (s : str) : bool :=
  match s with
  | [] => false
  | c :: s' =>
      (is_letter_or_apostrophe c && forallb isspace s') || search_letter_at_end s'
  end.

(** ** Regex helpers of the source *)

(** [PUNCT_RE = re.compile(r"([.!?,;:])")] is used through
    [sub_class_group is_punct]. *)

(** [WORD_RE.match(tok)] with [WORD_RE = ^[a-zA-Z']+$]: a non-empty run of
    letters and apostrophes up to the end, where [$] also matches before
    a final newline. *)
Definition is_word (tok : str) : bool :=
  match tok with
  | [] => false
  | c :: _ =>
      is_letter_or_apostrophe c &&
      match dropwhile is_letter_or_apostrophe tok with
      | [] => true
      | [n] => N.eqb (code n) 10
      | _ => false
      end
  end.

(** [re.sub(r"\s+", " ", s)]: each maximal whitespace run becomes one
    space. *)
Fixpoint collapse_spaces (s : str) : str :=
  match s with
  | [] => []
  | c :: s' =>
      if isspace c then
        match s' with
        | d :: _ => if isspace d then collapse_spaces s' else " "%char :: collapse_spaces s'
        | [] => [" "%char]
        end
      else c :: collapse_spaces s'
  end.

Definition normalize_spaces (s : str) : str := strip (collapse_spaces s).

(** The replacement template of [tokenize], as written in the source:
    a raw string holding space, backslash, backslash, 1, space. *)
Definition tokenize_template : str := lit " \\1 ".

Definition tokenize (text : str) : list str :=
  let text := sub_class_group is_punct tokenize_template text in
  filter (fun p => negb (is_empty (strip p))) (split text).

Definition english_plural_to_singular (word : str) : str :=
  if endswith word (lit "ies") && (3 <? length word)%nat
  then firstn (length word - 3) word ++ lit "y"
  else if endswith word (lit "s") && (3 <? length word)%nat
          && negb (endswith word (lit "ss"))
  then firstn (length word - 1) word
  else word.


(** ** Dictionaries and sets *)

Definition dict := list (str * str).

(** [k in d] / [d.get(k)] *)
Fixpoint dict_find (d : dict) (k : str) : option str :=
  match d with
  | [] => None
  | (k', v) :: d' => if str_eqb k' k then Some v else dict_find d' k
  end.

Definition dict_mem (d : dict) (k : str) : bool :=
  match dict_find d k with Some _ => true | None => false end.

(** [d.get(k, default)] *)
Definition dict_get (d : dict) (k default : str) : str :=
  match dict_find d k with Some v => v | None => default end.

(** [d[k] = v]: an existing key keeps its place, a new key goes last. *)
Fixpoint dict_set (d : dict) (k v : str) : dict :=
  match d with
  | [] => [(k, v)]
  | (k', v') :: d' =>
      if str_eqb k' k then (k', v) :: d' else (k', v') :: dict_set d' k v
  end.

(** [d.keys()] *)
Definition dict_keys (d : dict) : list str := map fst d.

(** A dictionary display [{k1: v1, ...}]. *)
Definition dict_of (l : list (string * string)) : dict :=
  fold_left (fun d kv => dict_set d (lit (fst kv)) (lit (snd kv))) l [].

(** [x in s] for a set of strings. *)
Definition set_mem (x : str) (s : list str) : bool := existsb (str_eqb x) s.

Definition set_of (l : list string) : list str := map lit l.

(** [sorted(l, key=len, reverse=True)]: stable, longest first. *)
Fixpoint insert_by_len (x : str) (l : list str) : list str :=
  match l with
  | [] => [x]
  | y :: l' =>
      if (length x <? length y)%nat then y :: insert_by_len x l' else x :: l
  end.

Fixpoint sorted_len_desc (l : list str) : list str :=
  match l with
  | [] => []
  | x :: l' => insert_by_len x (sorted_len_desc l')
  end.

(** ** Phrase rules *)

Local Open Scope string_scope.

(** [PHRASES]: the pattern of a pair [(p, r)] is [\b p \b]. *)
Definition PHRASES : list (string * string) :=
  [ ("thanks a lot", "chala thanks");
    ("thank you", "chala thanks");
    ("thank u", "chala thanks");
    ("thanks", "thanks");
    ("good morning", "good morning");
    ("good night", "good night");
    ("i love you", "nenu ninnu premistunna");
    ("i miss you", "nenu ninnu miss avtunna");
    ("what are you doing", "em chestunnav");
    ("what is this", "idi enti");
    ("how are you", "ela unnav");
    ("i am fine", "bagunna");
    ("i am sorry", "sorry ra");
    ("excuse me", "excuse me");
    ("please", "please") ].

Local Close Scope string_scope.

Definition apply_phrase_rules (text : str) : str :=
  let t := lower text in
  fold_left (fun t pr => sub_word true (lit (fst pr)) (lit (snd pr)) t) PHRASES t.

(** ** The dictionary builder *)

Record verb_forms := { v1 : string; ing : string; ed : string; will : string }.

Local Open Scope string_scope.

Definition base : list (string * string) :=
  [
    ("i", "nenu"); ("me", "nannu"); ("my", "naa"); ("mine", "naadi");
    ("you", "nuvvu"); ("your", "nee"); ("yours", "needi"); ("he", "vaadu");
    ("him", "vaadini"); ("his", "vaadi"); ("she", "aame"); ("her", "aameni");
    ("hers", "aame di"); ("we", "manam"); ("us", "manalni"); ("our", "maa");
    ("they", "vaallu"); ("them", "vaallani"); ("their", "vaalla");
    ("am", "unna"); ("is", "undi"); ("are", "unnaru"); ("was", "unde");
    ("were", "unnaru"); ("be", "undu"); ("and", "inka"); ("but", "kani");
    ("because", "endukante"); ("so", "andukani"); ("then", "appudu");
    ("to", "ki"); ("in", "lo"); ("with", "tho"); ("on", "meeda");
    ("at", "daggara"); ("from", "nundi"); ("for", "kosam");
    ("about", "gurinchi"); ("before", "mundhu"); ("after", "tarvata");
    ("go", "ellu"); ("come", "ra"); ("do", "chey"); ("eat", "tinu");
    ("drink", "taagu"); ("sleep", "nidra"); ("work", "pani");
    ("study", "chaduvu"); ("wait", "agu"); ("stop", "aapu");
    ("start", "start"); ("see", "choodu"); ("watch", "choodu");
    ("look", "choodu"); ("say", "cheppu"); ("tell", "cheppu");
    ("give", "ivvu"); ("take", "teesko"); ("help", "help"); ("what", "em");
    ("why", "enduku"); ("how", "ela"); ("where", "ekkada");
    ("when", "eppudu"); ("who", "evaru"); ("which", "edi");
    ("now", "ippudu"); ("today", "ivala"); ("tomorrow", "repu");
    ("yesterday", "ninna"); ("later", "tarvata"); ("always", "eppudu");
    ("never", "eppudu kaadu"); ("good", "bagundi"); ("bad", "baaledu");
    ("fine", "bagundi"); ("very", "chala"); ("ok", "sare"); ("okay", "sare");
    ("yes", "avunu"); ("no", "ledu"); ("bro", "bro"); ("dude", "bro");
    ("friend", "friend"); ("thanks", "thanks"); ("sorry", "sorry");
    ("please", "please"); ("hello", "hello"); ("hi", "hi"); ("bye", "bye");
    ("late", "late"); ("fast", "fast"); ("slow", "slow") ].

Definition fixed_phrases : list (string * string) :=
  [
    ("i am", "nenu unna"); ("i'm", "nenu"); ("you are", "nuvvu");
    ("you're", "nuvvu"); ("what are you doing", "em chestunnav");
    ("what are u doing", "em chestunnav"); ("how are you", "ela unnav") ].

Definition keep_nouns : list string :=
  [
    "office"; "meeting"; "college"; "class"; "project"; "assignment";
    "deadline"; "phone"; "mobile"; "laptop"; "wifi"; "internet"; "email";
    "app"; "gym"; "workout"; "diet"; "protein"; "training"; "practice";
    "youtube"; "instagram"; "whatsapp"; "google"; "bus"; "train"; "bike";
    "car"; "home"; "room"; "food"; "water"; "money"; "time"; "gate"; "iit";
    "eldermate"; "raspberry"; "pi" ].

Definition verb_bank : list (string * verb_forms) :=
  [
    ("go", {| v1 := "ellu"; ing := "veltunna"; ed := "vellaa"; will := "velta" |});
    ("come", {| v1 := "ra"; ing := "vastunna"; ed := "vachaa"; will := "vasta" |});
    ("do", {| v1 := "chey"; ing := "chestunna"; ed := "chesaa"; will := "chestaa" |});
    ("eat", {| v1 := "tinu"; ing := "tintunna"; ed := "tinna"; will := "tintaa" |});
    ("drink", {| v1 := "taagu"; ing := "taagutunna"; ed := "taaga"; will := "taagtaa" |});
    ("sleep", {| v1 := "nidra"; ing := "nidra potunna"; ed := "nidra poya"; will := "nidra potaa" |});
    ("study", {| v1 := "chaduvu"; ing := "chaduvutunna"; ed := "chadivaa"; will := "chaduvutaa" |});
    ("work", {| v1 := "pani"; ing := "panichestunna"; ed := "pani chesaa"; will := "panichestaa" |});
    ("wait", {| v1 := "agu"; ing := "agutunna"; ed := "agaa"; will := "aguta" |});
    ("stop", {| v1 := "aapu"; ing := "aapestunna"; ed := "aapesaa"; will := "aapestaa" |});
    ("see", {| v1 := "choodu"; ing := "chustunna"; ed := "chusaa"; will := "chustaa" |});
    ("watch", {| v1 := "choodu"; ing := "chustunna"; ed := "chusaa"; will := "chustaa" |});
    ("tell", {| v1 := "cheppu"; ing := "cheptunna"; ed := "cheppaa"; will := "cheptaa" |});
    ("say", {| v1 := "cheppu"; ing := "cheptunna"; ed := "cheppaa"; will := "cheptaa" |});
    ("give", {| v1 := "ivvu"; ing := "istunna"; ed := "ichaa"; will := "istaa" |});
    ("take", {| v1 := "teesko"; ing := "teesukuntunna"; ed := "teeskunna"; will := "teeskuntaa" |});
    ("help", {| v1 := "help"; ing := "help chestunna"; ed := "help chesaa"; will := "help chestaa" |}) ].

Local Close Scope string_scope.

(** The body of the loop over [verb_bank]. *)
Definition add_verb (final : dict) (entry : string * verb_forms) : dict :=
  let v := lit (fst entry) in
  let forms := snd entry in
  let root := lit (v1 forms) in
  let final := dict_set final v root in
  let final := dict_set final (v ++ lit "ing") (lit (ing forms)) in
  let final :=
    if endswith v (lit "e")
    then dict_set final (firstn (length v - 1) v ++ lit "ing") (lit (ing forms))
    else dict_set final (v ++ lit "ing") (lit (ing forms)) in
  let final := dict_set final (v ++ lit "ed") (lit (ed forms)) in
  let final :=
    if str_eqb v (lit "go") then dict_set final (lit "went") (lit (ed forms))
    else if str_eqb v (lit "eat") then dict_set final (lit "ate") (lit (ed forms))
    else if str_eqb v (lit "drink") then dict_set final (lit "drank") (lit (ed forms))
    else if str_eqb v (lit "sleep") then dict_set final (lit "slept") (lit (ed forms))
    else if str_eqb v (lit "take") then dict_set final (lit "took") (lit (ed forms))
    else if str_eqb v (lit "come") then dict_set final (lit "came") (lit (ed forms))
    else if str_eqb v (lit "do") then dict_set final (lit "did") (lit (ed forms))
    else final in
  let final := dict_set final (lit "will " ++ v) (lit (will forms)) in
  let final := dict_set final (lit "can " ++ v) (root ++ lit " galanu") in
  let final := dict_set final (lit "cannot " ++ v) (root ++ lit " ledu") in
  let final := dict_set final (lit "can't " ++ v) (root ++ lit " ledu") in
  let final := dict_set final (lit "want to " ++ v) (root ++ lit " kavali") in
  let final := dict_set final (lit "need to " ++ v) (root ++ lit " kavali") in
  let final := dict_set final (lit "have to " ++ v) (root ++ lit " kavali") in
  let final := dict_set final (lit "must " ++ v) (root ++ lit " tappadu") in
  let final := dict_set final (lit "please " ++ v) (lit "please " ++ root) in
  final.

Definition build_tenglish_dictionary : dict :=
  let final := dict_of base in
  let final :=
    fold_left (fun d kv => dict_set d (lit (fst kv)) (lit (snd kv))) fixed_phrases final in
  let final := fold_left (fun d n => dict_set d (lit n) (lit n)) keep_nouns final in
  fold_left add_verb verb_bank final.

Local Open Scope string_scope.

Definition KEEP_ENGLISH_DEFAULT : list str :=
  set_of [
    "wifi"; "internet"; "phone"; "mobile"; "laptop"; "app"; "email";
    "office"; "meeting"; "project"; "assignment"; "deadline"; "class";
    "college"; "gym"; "workout"; "diet"; "protein"; "training"; "practice";
    "youtube"; "instagram"; "whatsapp"; "google"; "bus"; "train"; "bike";
    "car"; "gate"; "iit"; "eldermate"; "raspberry"; "pi"; "camera"; "robot" ].

Local Close Scope string_scope.

(** ** The converter *)

Definition to_title_like (original converted : str) : str :=
  match original with
  | [] => converted
  | o :: _ =>
      match converted with
      | c :: rest => if isupper o then upper_char c ++ rest else converted
      | [] => converted
      end
  end.

Local Open Scope string_scope.

Definition glue_set : list str :=
  set_of [
    "i"; "you"; "me"; "my"; "your"; "is"; "am"; "are"; "was"; "were"; "no";
    "yes"; "now"; "today"; "tomorrow"; "yesterday"; "what"; "why"; "how";
    "where"; "when"; "who"; "and"; "but"; "because"; "so"; "then"; "please";
    "sorry"; "very"; "to"; "in"; "with"; "on"; "at"; "from"; "for"; "about";
    "before"; "after" ].

Local Close Scope string_scope.

(** The body of the loop over the tokens: what is appended to [out]. *)
Definition translate_token (telugu_strength : Z) (keep_english_nouns : bool)
           (word_dict : dict) (keep_english_set : list str) (tok : str) : str :=
  if negb (is_word tok) then tok
  else
    let orig := tok in
    let w := lower tok in
    let w_s := english_plural_to_singular w in
    if keep_english_nouns && (set_mem w keep_english_set || set_mem w_s keep_english_set)
    then w
    else
      let in_dict := dict_mem word_dict w || dict_mem word_dict w_s in
      if in_dict then
        let translate :=
          if (35 <=? telugu_strength)%Z then true
          else set_mem w glue_set || set_mem w_s glue_set in
        if translate
        then to_title_like orig (dict_get word_dict w (dict_get word_dict w_s w))
        else w
      else w.

(** The multiword keys in the order in which they are substituted. *)
Definition multiword_keys (word_dict : dict) : list str :=
  sorted_len_desc (filter (contains (lit " ")) (dict_keys word_dict)).

(** The multiword pass.  The replacement [word_dict[k]] is taken as it is,
    which is what [re.sub] does with a replacement without backslash. *)
Definition multiword_pass (word_dict : dict) (result : str) : str :=
  fold_left (fun result k => sub_word true k (dict_get word_dict k []) result)
            (multiword_keys word_dict) result.

Definition postposition_pass (result : str) : str :=
  let result := sub_word false (lit "to") (lit "ki") result in
  let result := sub_word false (lit "in") (lit "lo") result in
  let result := sub_word false (lit "with") (lit "tho") result in
  result.

Definition slang_pass (result : str) : str :=
  if contains (lit "?") result then
    if negb (search_word [lit "ra"; lit "rey"; lit "bro"] result)
    then replace_char "?"%char (lit " ra?") result
    else result
  else
    if (length (split result) <=? 7)%nat
       && negb (search_word [lit "ra"; lit "rey"] result)
    then result ++ lit " ra"
    else result.

Definition polite_pass (result : str) : str :=
  if search_letter_at_end result then strip result ++ lit " andi" else result.

(** [re.sub(r"\s+([.!?,;:])", r"\1", s)]: a whitespace run that ends at a
    punctuation mark is removed, the mark (group 1) stays. *)
Definition starts_with_punct (s : str) : bool :=
  match s with
  | c :: _ => is_punct c
  | [] => false
  end.

Fixpoint clean_punct_spacing (s : str) : str :=
  match s with
  | [] => []
  | c :: s' =>
      if isspace c && starts_with_punct (dropwhile isspace s')
      then clean_punct_spacing s'
      else c :: clean_punct_spacing s'
  end.

Definition convert_to_tenglish (text : str) (telugu_strength : Z)
           (keep_english_nouns polite_mode add_postpositions add_telangana_slang : bool)
           (word_dict : dict) (keep_english_set : list str) : str :=
  if is_empty (strip text) then []
  else
    let t := apply_phrase_rules text in
    let tokens := tokenize t in
    let out :=
      map (translate_token telugu_strength keep_english_nouns word_dict keep_english_set)
          tokens in
    let result := join (lit " ") out in
    let result := multiword_pass word_dict result in
    let result := if add_postpositions then postposition_pass result else result in
    let result := if add_telangana_slang then slang_pass result else result in
    let result := if polite_mode then polite_pass result else result in
    let result := clean_punct_spacing result in
    let result := normalize_spaces result in
    result.

(** [W = build_tenglish_dictionary()], evaluated. *)
Definition W : dict := Eval vm_compute in build_tenglish_dictionary.

(** ** Specification-side notions used in the statements *)

(** The pipeline up to and including the postposition pass: the value of
    [result] on entry to the Telangana slang pass. *)
Definition result_before_slang (text : str) (telugu_strength : Z)
           (keep_english_nouns add_postpositions : bool)
           (word_dict : dict) (keep_english_set : list str) : str :=
  let out :=
    map (translate_token telugu_strength keep_english_nouns word_dict keep_english_set)
        (tokenize (apply_phrase_rules text)) in
  let result := multiword_pass word_dict (join (lit " ") out) in
  if add_postpositions then postposition_pass result else result.

(** Maximal runs of word characters and of other characters, in order:
    the word runs are the whole words that [\b] delimits. *)
Fixpoint runs (s : str) : list str :=
  match s with
  | [] => []
  | c :: s' =>
      match runs s' with
      | (d :: r) :: rs =>
          if Bool.eqb (is_word_char c) (is_word_char d)
          then (c :: d :: r) :: rs
          else [c] :: (d :: r) :: rs
      | _ => [[c]]
      end
  end.

(** What the postposition styling does to one run, in the words of the
    specification. *)
Definition style_word (w : str) : str :=
  if str_eqb w (lit "to") then lit "ki"
  else if str_eqb w (lit "in") then lit "lo"
  else if str_eqb w (lit "with") then lit "tho"
  else w.



(** Proof-side notions for the postposition pass.  [last_or prev a] is the
    character before the position that follows [a], [prev] being the one
    before [a].  [segmented b l] says that [l] is a list of non-empty
    segments, each made of word characters only or of other characters
    only, in which a segment of word characters is never preceded by a
    word character; [b] tells whether a word character precedes [l]. *)
Definition last_or (prev : option ascii) (a : str) : option ascii :=
  fold_left (fun _ c => Some c) a prev.

Inductive segmented : bool -> list str -> Prop :=
| segmented_nil : forall b, segmented b []
| segmented_word : forall c seg l,
    is_word_char c = true ->
    Forall (fun x => is_word_char x = true) seg ->
    segmented true l ->
    segmented false ((c :: seg) :: l)
| segmented_other : forall b c seg l,
    is_word_char c = false ->
    Forall (fun x => is_word_char x = false) seg ->
    segmented false l ->
    segmented b ((c :: seg) :: l).

(** Replacement of the segments equal to [k]. *)
Definition replace_segment (k rep seg : str) : str :=
  if str_eqb seg k then rep else seg.

(** [w] occurs in [k] when case is ignored. *)
Fixpoint ci_prefix (w k : str) : bool :=
  match w, k with
  | [], _ => true
  | _ :: _, [] => false
  | a :: w', b :: k' => char_match true b a && ci_prefix w' k'
  end.

Fixpoint ci_contains (w k : str) : bool :=
  ci_prefix w k ||
  match k with
  | [] => false
  | _ :: k' => ci_contains w k'
  end.

(** [w] is in none of the literals [keys]. *)
Definition in_no_key (w : str) (keys : list str) : bool :=
  forallb (fun k => negb (ci_contains w k)) keys.

(** [w] occurs in [r] as a contiguous part. *)
Definition occurs (w r : str) : Prop := exists pre post, r = pre ++ w ++ post.

(** State of the scan of [sub_word_go] in the middle of a match: the
    [skip] characters still to be passed over are matched by the end [kt]
    of the pattern, and a [\b] follows them. *)
Definition pending (ci : bool) (k : str) (skip : nat) (prev : option ascii)
           (s : str) : Prop :=
  exists a kt, k = a ++ kt /\ length kt = skip
               /\ (kt <> [] -> lit_then_boundary ci kt prev s = true).



(** ** The keep-English set of the page *)

(** [s.split(sep)] for a one-character separator: the pieces between the
    separators, the empty ones included. *)
Fixpoint split_on (sep : ascii) (s : str) : list str :=
  match s with
  | [] => [[]]
  | c :: s' =>
      if Ascii.eqb c sep then [] :: split_on sep s'
      else match split_on sep s' with
           | p :: ps => (c :: p) :: ps
           | [] => [[c]]
           end
  end.

(** [s.add(x)] *)
Definition set_add (x : str) (s : list str) : list str :=
  if set_mem x s then s else x :: s.

(** The set that the page passes to [convert_to_tenglish]: the default
    set and the pieces of the comma-separated field [custom_keep],
    stripped and lower-cased, the empty ones left out. *)
Definition page_keep_english_set (custom_keep : str) : list str :=
  fold_left
    (fun keep_english_set w =>
       let w := lower (strip w) in
       if is_empty w then keep_english_set else set_add w keep_english_set)
    (split_on ","%char custom_keep) (KEEP_ENGLISH_DEFAULT).

(** ** Notions for the further properties *)

Definition starts_with_space (s : str) : bool :=
  match s with
  | c :: _ => isspace c
  | [] => false
  end.

(** Every whitespace character is a plain space and is not followed by
    another whitespace character. *)
Fixpoint single_spaced (s : str) : bool :=
  match s with
  | [] => true
  | c :: s' =>
      (if isspace c then Ascii.eqb c " " && negb (starts_with_space s') else true)
      && single_spaced s'
  end.

(** No whitespace character stands immediately before a punctuation
    mark. *)
Fixpoint no_space_before_punct (s : str) : bool :=
  match s with
  | [] => true
  | c :: s' => negb (isspace c && starts_with_punct s') && no_space_before_punct s'
  end.

(** A string that [tokenize] can return as a token: not empty, without
    whitespace and without punctuation mark. *)
Definition token_like (t : str) : bool :=
  negb (is_empty t) && forallb (fun c => negb (isspace c) && negb (is_punct c)) t.



(** Longest first. *)
Definition longer_or_equal (a b : str) : Prop := length b <= length a.


(** The last character is a letter or an apostrophe. *)
Definition ends_with_letter (s : str) : bool :=
  match rev s with
  | c :: _ => is_letter_or_apostrophe c
  | [] => false
  end.
(** * Properties *)

(** ** Evaluation of the builder *)

Lemma W_eq : W = build_tenglish_dictionary.
Proof. vm_compute. reflexivity. Qed.

(** ** Basic facts on strings *)

Lemma str_eqb_eq (a b : str) : str_eqb a b = true <-> a = b.
Proof.
  unfold str_eqb. destruct (list_eq_dec ascii_dec a b); split; congruence.
Qed.

Lemma str_eqb_refl (a : str) : str_eqb a a = true.
Proof. apply str_eqb_eq. reflexivity. Qed.

Lemma str_eqb_neq (a b : str) : str_eqb a b = false <-> a <> b.
Proof.
  unfold str_eqb. destruct (list_eq_dec ascii_dec a b); split; congruence.
Qed.

Lemma dropwhile_all (p : ascii -> bool) (s : str) :
  forallb p s = true -> dropwhile p s = [].
Proof.
  induction s as [|c s IH]; simpl; [reflexivity|].
  intros H. apply andb_prop in H. destruct H as [Hc Hs].
  rewrite Hc. auto.
Qed.

Lemma strip_whitespace_only (s : str) :
  forallb isspace s = true -> strip s = [].
Proof.
  intros H. unfold strip. rewrite (dropwhile_all _ _ H). reflexivity.
Qed.

Lemma Forall_bool {A : Type} (p : A -> bool) (l : list A) :
  forallb p l = true -> Forall (fun x => p x = true) l.
Proof.
  intros H. apply Forall_forall. apply (proj1 (forallb_forall p l) H).
Qed.

(** No phrase replacement and no value of the dictionary holds a
    backslash. *)
Lemma builder_replacements_literal :
  forallb (fun pr => negb (existsb (Ascii.eqb "\") (lit (snd pr)))) PHRASES = true
  /\ forallb (fun kv => negb (existsb (Ascii.eqb "\") (snd kv)))
             build_tenglish_dictionary = true.
Proof. split; vm_compute; reflexivity. Qed.

(** ** Character-wise invariants of the passes *)

Section Preservation.

Variable P : ascii -> Prop.

Lemma Forall_dropwhile (p : ascii -> bool) (s : str) :
  Forall P s -> Forall P (dropwhile p s).
Proof.
  induction 1 as [|c s Hc Hs IH]; simpl; [constructor|].
  destruct (p c); [exact IH | constructor; assumption].
Qed.

Lemma Forall_strip (s : str) : Forall P s -> Forall P (strip s).
Proof.
  intros H. unfold strip.
  apply Forall_rev, Forall_dropwhile, Forall_rev, Forall_dropwhile, H.
Qed.

Lemma Forall_cons_head (c : ascii) (l : list str) :
  P c -> Forall (Forall P) l -> Forall (Forall P) (cons_head c l).
Proof.
  intros Hc Hl. destruct Hl as [|w ws Hw Hws]; simpl.
  - repeat constructor; assumption.
  - constructor; [constructor; assumption | assumption].
Qed.

Lemma Forall_split (s : str) : Forall P s -> Forall (Forall P) (split s).
Proof.
  induction 1 as [|c s Hc Hs IH]; simpl; [constructor|].
  destruct (isspace c); [exact IH|].
  destruct s as [|d s'].
  - repeat constructor; assumption.
  - destruct (isspace d).
    + constructor; [repeat constructor; assumption | exact IH].
    + apply Forall_cons_head; assumption.
Qed.

Lemma Forall_join (sep : str) (l : list str) :
  Forall P sep -> Forall (Forall P) l -> Forall P (join sep l).
Proof.
  intros Hsep. induction 1 as [|x l Hx Hl IH]; simpl; [constructor|].
  destruct l as [|y l']; [exact Hx|].
  apply Forall_app; split; [exact Hx|].
  apply Forall_app; split; [exact Hsep | exact IH].
Qed.


Lemma Forall_sub_word_go (ci : bool) (pat rep : str) (s : str) :
  Forall P rep -> Forall P s ->
  forall skip prev, Forall P (sub_word_go ci pat rep skip prev s).
Proof.
  intros Hrep. induction 1 as [|c s Hc Hs IH]; intros skip prev; simpl;
    [constructor|].
  destruct skip as [|k]; [|apply IH].
  destruct (word_lit_at ci pat prev (c :: s)).
  - apply Forall_app; split; [exact Hrep | apply IH].
  - constructor; [exact Hc | apply IH].
Qed.

Lemma Forall_sub_word (ci : bool) (pat rep : str) (s : str) :
  Forall P rep -> Forall P s -> Forall P (sub_word ci pat rep s).
Proof. intros Hrep Hs. apply Forall_sub_word_go; assumption. Qed.


Hypothesis P_space : P " "%char.

Lemma Forall_collapse_spaces (s : str) :
  Forall P s -> Forall P (collapse_spaces s).
Proof.
  induction 1 as [|c s Hc Hs IH]; simpl; [constructor|].
  destruct (isspace c).
  - destruct s as [|d s']; [repeat constructor; exact P_space|].
    destruct (isspace d); [exact IH | constructor; [exact P_space | exact IH]].
  - constructor; assumption.
Qed.

Lemma Forall_normalize_spaces (s : str) :
  Forall P s -> Forall P (normalize_spaces s).
Proof.
  intros H. apply Forall_strip, Forall_collapse_spaces, H.
Qed.

Lemma Forall_dict_get (d : dict) (k default : str) :
  Forall (fun kv => Forall P (snd kv)) d -> Forall P default ->
  Forall P (dict_get d k default).
Proof.
  intros Hd Hdef. unfold dict_get.
  induction Hd as [|[k' v] d Hv Hd IH]; simpl; [exact Hdef|].
  destruct (str_eqb k' k); [exact Hv | exact IH].
Qed.

Lemma Forall_fold_sub_word (ci : bool) (rep : str -> str) (keys : list str) :
  (forall k, Forall P (rep k)) ->
  forall s, Forall P s ->
  Forall P (fold_left (fun r k => sub_word ci k (rep k) r) keys s).
Proof.
  intros Hrep. induction keys as [|k keys IH]; intros s Hs; simpl; [exact Hs|].
  apply IH, Forall_sub_word; [apply Hrep | exact Hs].
Qed.

End Preservation.

(** ** Early return *)

(** C8. For every configuration, dictionary and keep-English set,
    [convert_to_tenglish] returns the empty string on the empty string
    and on every text made of whitespace only. *)
Theorem convert_whitespace_only_is_empty
        (text : str) (telugu_strength : Z)
        (keep_english_nouns polite_mode add_postpositions add_telangana_slang : bool)
        (word_dict : dict) (keep_english_set : list str) :
  convert_to_tenglish [] telugu_strength keep_english_nouns polite_mode
    add_postpositions add_telangana_slang word_dict keep_english_set = []
  /\ (forallb isspace text = true ->
      convert_to_tenglish text telugu_strength keep_english_nouns polite_mode
        add_postpositions add_telangana_slang word_dict keep_english_set = []).
Proof.
  split; [reflexivity|].
  intros H. unfold convert_to_tenglish.
  rewrite (strip_whitespace_only _ H). reflexivity.
Qed.

Lemma convert_whitespace_only_is_empty_witness :
  forallb isspace (" " :: "009" :: "010" :: " " :: nil)%char = true
  /\ convert_to_tenglish (" " :: "009" :: "010" :: " " :: nil)%char 65 true true true true
       W KEEP_ENGLISH_DEFAULT = [].
Proof.
  split.
  - reflexivity.
  - apply (proj2 (convert_whitespace_only_is_empty
                    (" " :: "009" :: "010" :: " " :: nil)%char 65 true true true true
                    W KEEP_ENGLISH_DEFAULT)).
    reflexivity.
Defined.

(** ** Strength *)

Lemma translate_token_threshold (s1 s2 : Z) (keep : bool) (d : dict) (ks : list str) :
  (35 <=? s1)%Z = (35 <=? s2)%Z ->
  forall tok, translate_token s1 keep d ks tok = translate_token s2 keep d ks tok.
Proof.
  intros H tok. unfold translate_token. rewrite H. reflexivity.
Qed.

Lemma convert_threshold (text : str) (s1 s2 : Z) (keep polite post slang : bool)
      (d : dict) (ks : list str) :
  (35 <=? s1)%Z = (35 <=? s2)%Z ->
  convert_to_tenglish text s1 keep polite post slang d ks
  = convert_to_tenglish text s2 keep polite post slang d ks.
Proof.
  intros H. unfold convert_to_tenglish.
  rewrite (map_ext _ _ (translate_token_threshold s1 s2 keep d ks H)).
  reflexivity.
Qed.

(** C9. The strength enters the conversion only through the test
    [strength >= 35]: two strengths on the same side of the threshold give
    the same output on the same text, flags, dictionary and keep-English
    set.  So a strength below 0 behaves as 0 and a strength above 100 as
    any strength that reaches the threshold; the conversion is a total
    function of an unbounded integer strength. *)
Theorem convert_strength_only_through_threshold
        (text : str) (keep_english_nouns polite_mode add_postpositions
                      add_telangana_slang : bool)
        (word_dict : dict) (keep_english_set : list str) :
  let convert s :=
    convert_to_tenglish text s keep_english_nouns polite_mode add_postpositions
      add_telangana_slang word_dict keep_english_set in
  (forall s1 s2 : Z, ((35 <= s1)%Z <-> (35 <= s2)%Z) -> convert s1 = convert s2)
  /\ (forall s : Z, (s < 0)%Z -> convert s = convert 0%Z)
  /\ (forall s s' : Z, (100 < s)%Z -> (35 <= s')%Z -> convert s = convert s').
Proof.
  intros convert. unfold convert. split; [|split].
  - intros s1 s2 H. apply convert_threshold.
    destruct (Z.leb_spec 35 s1), (Z.leb_spec 35 s2); try reflexivity; lia.
  - intros s H. apply convert_threshold.
    destruct (Z.leb_spec 35 s); [lia | reflexivity].
  - intros s s' H H'. apply convert_threshold.
    destruct (Z.leb_spec 35 s), (Z.leb_spec 35 s'); try reflexivity; lia.
Qed.

Lemma convert_strength_only_through_threshold_witness :
  (((35 <= -7)%Z <-> (35 <= 20)%Z)
   /\ convert_to_tenglish (lit "We go to office today") (-7) true false true false
        W KEEP_ENGLISH_DEFAULT
      = convert_to_tenglish (lit "We go to office today") 20 true false true false
          W KEEP_ENGLISH_DEFAULT)
  /\ ((100 < 250)%Z /\ (35 <= 35)%Z
      /\ convert_to_tenglish (lit "We go to office today") 250 true false true false
           W KEEP_ENGLISH_DEFAULT
         = convert_to_tenglish (lit "We go to office today") 35 true false true false
             W KEEP_ENGLISH_DEFAULT).
Proof.
  pose proof (convert_strength_only_through_threshold
                (lit "We go to office today") true false true false
                W KEEP_ENGLISH_DEFAULT) as [H1 [_ H3]].
  split.
  - assert (Hiff : (35 <= -7)%Z <-> (35 <= 20)%Z) by lia.
    split; [exact Hiff | exact (H1 (-7)%Z 20%Z Hiff)].
  - assert (Ha : (100 < 250)%Z) by lia.
    assert (Hb : (35 <= 35)%Z) by lia.
    split; [exact Ha | split; [exact Hb | exact (H3 250%Z 35%Z Ha Hb)]].
Defined.

(** ** The tokenizer and punctuation *)


(** With a single backslash the template would name group 1. *)
Lemma single_backslash_template_expands (c : ascii) :
  expand_template (lit " \1 ") [[c]] = (" " :: c :: " " :: nil)%char.
Proof. reflexivity. Qed.

Lemma cleanup_template_expands (c : ascii) :
  expand_template (lit "\1") [[c]] = [c].
Proof. reflexivity. Qed.

Lemma tokenize_no_punctuation (text : str) :
  Forall (Forall (fun c => is_punct c = false)) (tokenize text).
Proof.
  unfold tokenize. apply Forall_forall. intros tok Htok.
  apply filter_In in Htok. destruct Htok as [Htok _]. revert tok Htok.
  apply Forall_forall. apply Forall_split.
  unfold sub_class_group. induction text as [|c text IH]; simpl; [constructor|].
  apply Forall_app; split; [|exact IH].
  destruct (is_punct c) eqn:E.
  - repeat constructor.
  - constructor; [exact E | constructor].
Qed.

(** C1. On ["now."] the tokenizer yields the tokens [now] and [\1]: the
    full stop is not a token, the two characters backslash and 1 stand in
    its place, and no token of any text holds a punctuation mark.  End to
    end, the trailing full stop of ["I am going to office now."] is lost:
    the output ends in [ \1]. *)
Theorem tokenize_replaces_punctuation_by_backslash_1 :
  tokenize (lit "now.") = [lit "now"; lit "\1"]
  /\ tokenize (lit "a,b?") = [lit "a"; lit "\1"; lit "b"; lit "\1"]
  /\ (forall text, Forall (Forall (fun c => is_punct c = false)) (tokenize text))
  /\ convert_to_tenglish (lit "I am going to office now.") 65 true false true false
       W KEEP_ENGLISH_DEFAULT
     = lit "nenu unna veltunna ki office ippudu \1".
Proof.
  split; [reflexivity | split; [reflexivity | split]].
  - apply tokenize_no_punctuation.
  - vm_compute. reflexivity.
Qed.

(** ** Capitalization *)

(** C4, counterexample. Under the default configuration the output for
    ["Thanks a lot"] is not ["Chala thanks"]. *)
Lemma thanks_a_lot_not_capitalized :
  convert_to_tenglish (lit "Thanks a lot") 65 true false true false
    W KEEP_ENGLISH_DEFAULT
  <> lit "Chala thanks".
Proof. vm_compute. discriminate. Qed.

(** C4, as amended. [to_title_like] puts the upper-case form of the first
    character of the replacement in front when the original starts with an
    upper-case character and returns the replacement as it is otherwise;
    for ["Thanks a lot"] the phrase rule gives ["chala thanks"], which is
    the output under the default configuration, with [" andi"] appended
    when the polite mode is on. *)
Theorem to_title_like_and_thanks_scenario :
  (forall o original c converted,
      to_title_like (o :: original) (c :: converted)
      = if isupper o then upper_char c ++ converted else c :: converted)
  /\ (forall original, to_title_like original [] = [])
  /\ (forall converted, to_title_like [] converted = converted)
  /\ to_title_like (lit "Going") (lit "veltunna") = lit "Veltunna"
  /\ apply_phrase_rules (lit "Thanks a lot") = lit "chala thanks"
  /\ convert_to_tenglish (lit "Thanks a lot") 65 true false true false
       W KEEP_ENGLISH_DEFAULT = lit "chala thanks"
  /\ convert_to_tenglish (lit "Thanks a lot") 65 true true true false
       W KEEP_ENGLISH_DEFAULT = lit "chala thanks andi".
Proof.
  split; [|split; [|split; [|repeat split; vm_compute; reflexivity]]].
  - intros. reflexivity.
  - intros [|o original]; reflexivity.
  - reflexivity.
Qed.

(** ** The two keep-as-English lists *)

(** C5, counterexample. ["home"] is a noun that the builder maps to itself
    and is not in the default keep-English set; ["camera"] is in the
    default set and not among the builder's nouns. *)
Lemma keep_lists_differ :
  ~ (forall w : str,
        set_mem w (set_of keep_nouns) = set_mem w KEEP_ENGLISH_DEFAULT).
Proof.
  intros H. specialize (H (lit "home")). vm_compute in H. discriminate.
Qed.

Local Open Scope string_scope.

(** C5, as amended. The builder's nouns and the default keep-English set
    share 33 words; the builder's list has six more (home, room, food,
    water, money, time) and the default set two more (camera, robot).
    Every noun of the builder's list is a key of the dictionary mapped to
    itself; camera and robot are not keys. *)
Theorem keep_lists_relation :
  filter (fun n => set_mem n KEEP_ENGLISH_DEFAULT) (set_of keep_nouns)
  = set_of ["office"; "meeting"; "college"; "class"; "project"; "assignment";
            "deadline"; "phone"; "mobile"; "laptop"; "wifi"; "internet";
            "email"; "app"; "gym"; "workout"; "diet"; "protein"; "training";
            "practice"; "youtube"; "instagram"; "whatsapp"; "google"; "bus";
            "train"; "bike"; "car"; "gate"; "iit"; "eldermate"; "raspberry";
            "pi"]
  /\ filter (fun n => negb (set_mem n KEEP_ENGLISH_DEFAULT)) (set_of keep_nouns)
     = set_of ["home"; "room"; "food"; "water"; "money"; "time"]
  /\ filter (fun n => negb (set_mem n (set_of keep_nouns))) KEEP_ENGLISH_DEFAULT
     = set_of ["camera"; "robot"]
  /\ forallb (fun n => match dict_find build_tenglish_dictionary n with
                       | Some v => str_eqb v n
                       | None => false
                       end) (set_of keep_nouns) = true
  /\ dict_mem build_tenglish_dictionary (lit "camera") = false
  /\ dict_mem build_tenglish_dictionary (lit "robot") = false.
Proof. repeat split; vm_compute; reflexivity. Qed.

Local Close Scope string_scope.

(** ** The scan of a word-bounded substitution *)

Lemma last_or_class (cls : bool) (a : str) :
  Forall (fun x => is_word_char x = cls) a ->
  forall prev, opt_word prev = cls -> opt_word (last_or prev a) = cls.
Proof.
  unfold last_or. induction 1 as [|c a Hc Ha IH]; intros prev Hp; simpl;
    [exact Hp | apply IH; exact Hc].
Qed.

Section WordSubstitution.

Variables (ci : bool) (k rep : str).

Lemma sub_word_go_skip (a b : str) :
  forall prev,
    sub_word_go ci k rep (length a) prev (a ++ b)
    = sub_word_go ci k rep 0 (last_or prev a) b.
Proof.
  induction a as [|c a IH]; intros prev; [reflexivity|].
  simpl. apply IH.
Qed.

Lemma sub_word_go_no_boundary (cls : bool) (a b : str) :
  Forall (fun x => is_word_char x = cls) a ->
  forall prev, opt_word prev = cls ->
    sub_word_go ci k rep 0 prev (a ++ b)
    = a ++ sub_word_go ci k rep 0 (last_or prev a) b.
Proof.
  induction 1 as [|c a Hc Ha IH]; intros prev Hp; [reflexivity|].
  simpl. unfold word_lit_at, boundary. simpl. rewrite Hp, Hc.
  rewrite xorb_nilpotent. simpl. f_equal. apply IH. exact Hc.
Qed.

End WordSubstitution.

(** ** What the passes leave in place *)

Lemma occurs_refl_app (w post : str) : occurs w (w ++ post).
Proof. exists [], post. reflexivity. Qed.

Lemma occurs_app_l (w a r : str) : occurs w r -> occurs w (a ++ r).
Proof.
  intros [pre [post ->]]. exists (a ++ pre), post. rewrite app_assoc. reflexivity.
Qed.

Lemma occurs_app_r (w r b : str) : occurs w r -> occurs w (r ++ b).
Proof.
  intros [pre [post ->]]. exists pre, (post ++ b).
  rewrite <- !app_assoc. reflexivity.
Qed.

Lemma occurs_cons (w : str) (c : ascii) (r : str) : occurs w r -> occurs w (c :: r).
Proof. apply (occurs_app_l w [c] r). Qed.

Lemma occurs_rev (w r : str) : occurs w r -> occurs (rev w) (rev r).
Proof.
  intros [pre [post ->]]. exists (rev post), (rev pre).
  rewrite !rev_app_distr, <- app_assoc. reflexivity.
Qed.

Lemma occurs_contains (w r : str) : occurs w r -> contains w r = true.
Proof.
  intros [pre [post ->]]. induction pre as [|c pre IH].
  - assert (H : prefix_eqb w (w ++ post) = true).
    { induction w as [|x w IHw]; [reflexivity|].
      simpl. rewrite Ascii.eqb_refl. exact IHw. }
    simpl. destruct (w ++ post); simpl; rewrite H; reflexivity.
  - simpl. rewrite IH. apply orb_true_r.
Qed.

Lemma occurs_join (w sep : str) (l : list str) : In w l -> occurs w (join sep l).
Proof.
  induction l as [|x l IH]; intros H; [destruct H|].
  destruct H as [-> | H].
  - destruct l as [|y l]; simpl.
    + exists [], []. rewrite app_nil_r. reflexivity.
    + apply occurs_refl_app.
  - destruct l as [|y l]; [destruct H|].
    change (join sep (x :: y :: l)) with (x ++ sep ++ join sep (y :: l)).
    apply occurs_app_l, occurs_app_l, IH, H.
Qed.

Lemma word_char_not_space (c : ascii) : is_word_char c = true -> isspace c = false.
Proof. destruct c as [[] [] [] [] [] [] [] []]; vm_compute; congruence. Qed.

Lemma word_char_not_question (c : ascii) :
  is_word_char c = true -> Ascii.eqb c "?" = false.
Proof. destruct c as [[] [] [] [] [] [] [] []]; vm_compute; congruence. Qed.

Lemma space_not_punct (c : ascii) : isspace c = true -> is_punct c = false.
Proof. destruct c as [[] [] [] [] [] [] [] []]; vm_compute; congruence. Qed.

Lemma space_lower (c : ascii) : isspace c = true -> lower_char c = c.
Proof. destruct c as [[] [] [] [] [] [] [] []]; vm_compute; congruence. Qed.

Section Frame.

(** A string [w] of word characters and a non-empty pattern literal [k]
    in which [w] does not occur. *)
Variables (ci : bool) (k rep w : str).
Hypothesis w_word : Forall (fun x => is_word_char x = true) w.
Hypothesis k_nonempty : k <> [].
Hypothesis w_not_in_k : ci_contains w k = false.

Lemma char_match_ci (p c : ascii) :
  char_match ci p c = true -> char_match true p c = true.
Proof.
  destruct ci; [auto|]. simpl. intros H. apply Ascii.eqb_eq in H. subst.
  apply Ascii.eqb_refl.
Qed.

(** A match that enters a run of word characters ends with it or after
    it. *)
Lemma lit_then_boundary_covers (kt : str) :
  kt <> [] ->
  forall (u post : str) (prev : option ascii),
    Forall (fun x => is_word_char x = true) u ->
    lit_then_boundary ci kt prev (u ++ post) = true ->
    ci_prefix u kt = true.
Proof.
  induction kt as [|p kt IH]; intros Hne u post prev Hu H; [congruence|].
  destruct Hu as [|x u Hx Hu]; [reflexivity|].
  simpl in H. apply andb_prop in H. destruct H as [Hpx H].
  change (ci_prefix (x :: u) (p :: kt))
    with (char_match true p x && ci_prefix u kt).
  rewrite (char_match_ci _ _ Hpx). simpl andb.
  destruct kt as [|q kt].
  - simpl in H. destruct Hu as [|y u Hy Hu]; [reflexivity|].
    exfalso. unfold boundary in H. simpl in H. rewrite Hx, Hy in H.
    discriminate.
  - apply (IH ltac:(discriminate) u post (Some x) Hu H).
Qed.

Lemma ci_contains_suffix (a b : str) :
  ci_contains w b = true -> ci_contains w (a ++ b) = true.
Proof.
  intros H. induction a as [|c a IH]; [exact H|].
  simpl. rewrite IH. apply orb_true_r.
Qed.

Lemma no_pending_match_at_w (a kt post : str) (prev : option ascii) :
  k = a ++ kt -> kt <> [] ->
  lit_then_boundary ci kt prev (w ++ post) = true -> False.
Proof.
  intros Hk Hne H.
  pose proof (lit_then_boundary_covers kt Hne w post prev w_word H) as Hp.
  assert (Hc : ci_contains w kt = true).
  { destruct kt; simpl; rewrite Hp; reflexivity. }
  apply (ci_contains_suffix a) in Hc. rewrite <- Hk in Hc. congruence.
Qed.

(** No match starts inside [w]. *)
Lemma sub_word_go_inside_w (u post : str) :
  forall (v : str) (prev : option ascii),
    w = v ++ u -> (v <> [] -> opt_word prev = true) ->
    sub_word_go ci k rep 0 prev (u ++ post)
    = u ++ sub_word_go ci k rep 0 (last_or prev u) post.
Proof.
  induction u as [|x u IH]; intros v prev Hw Hprev; [reflexivity|].
  assert (Hx : is_word_char x = true).
  { pose proof w_word as Hww. rewrite Hw in Hww. apply Forall_app in Hww.
    destruct Hww as [_ Hu]. inversion Hu. assumption. }
  assert (Hno : word_lit_at ci k prev ((x :: u) ++ post) = false).
  { destruct (word_lit_at ci k prev ((x :: u) ++ post)) eqn:E; [|reflexivity].
    exfalso. unfold word_lit_at in E. apply andb_prop in E. destruct E as [Eb El].
    destruct v as [|y v].
    - simpl in Hw. rewrite <- Hw in El.
      apply (no_pending_match_at_w [] k post prev eq_refl k_nonempty El).
    - unfold boundary in Eb. simpl in Eb.
      rewrite (Hprev ltac:(discriminate)), Hx in Eb. discriminate. }
  change ((x :: u) ++ post) with (x :: (u ++ post)) in *.
  simpl sub_word_go. rewrite Hno. simpl. f_equal.
  apply (IH (v ++ [x]) (Some x)).
  - rewrite <- app_assoc. exact Hw.
  - intros _. exact Hx.
Qed.

Lemma sub_word_go_frame (pre post : str) :
  forall skip prev,
    pending ci k skip prev (pre ++ w ++ post) ->
    occurs w (sub_word_go ci k rep skip prev (pre ++ w ++ post)).
Proof.
  induction pre as [|c pre IH]; intros skip prev [a [kt [Hk [Hlen Hm]]]].
  - simpl app. destruct skip as [|n].
    + rewrite (sub_word_go_inside_w w post [] prev eq_refl ltac:(congruence)).
      apply occurs_refl_app.
    + exfalso. assert (Hne : kt <> []) by (destruct kt; [discriminate | discriminate]).
      apply (no_pending_match_at_w a kt post prev Hk Hne (Hm Hne)).
  - change ((c :: pre) ++ w ++ post) with (c :: (pre ++ w ++ post)) in *.
    destruct skip as [|n].
    + simpl sub_word_go.
      destruct (word_lit_at ci k prev (c :: pre ++ w ++ post)) eqn:E.
      * apply occurs_app_l. apply IH.
        destruct k as [|p k'] eqn:Ek; [congruence|].
        exists [p], k'. split; [reflexivity|]. split; [simpl; lia|].
        intros _. unfold word_lit_at in E. apply andb_prop in E.
        destruct E as [_ E]. simpl in E. apply andb_prop in E. apply E.
      * apply occurs_cons. apply IH.
        exists k, []. split; [rewrite app_nil_r; reflexivity|].
        split; [reflexivity | congruence].
    + simpl sub_word_go. apply IH.
      destruct kt as [|p kt']; [discriminate|].
      exists (a ++ [p]), kt'. split; [rewrite <- app_assoc; exact Hk|].
      split; [simpl in Hlen; lia|].
      intros _. specialize (Hm ltac:(discriminate)).
      simpl in Hm. apply andb_prop in Hm. apply Hm.
Qed.

Lemma sub_word_frame (r : str) : occurs w r -> occurs w (sub_word ci k rep r).
Proof.
  intros [pre [post ->]]. apply sub_word_go_frame.
  exists k, []. split; [rewrite app_nil_r; reflexivity|].
  split; [reflexivity | congruence].
Qed.

End Frame.

Lemma in_insert_by_len (x y : str) (l : list str) :
  In x (insert_by_len y l) -> x = y \/ In x l.
Proof.
  induction l as [|z l IH]; simpl.
  - intros [H | []]. left. congruence.
  - destruct (length y <? length z)%nat; simpl.
    + intros [H | H]; [right; left; exact H|].
      destruct (IH H) as [H' | H']; [left | right; right]; exact H'.
    + intros [H | H]; [left; congruence | right; exact H].
Qed.

Lemma in_sorted_len_desc (x : str) (l : list str) :
  In x (sorted_len_desc l) -> In x l.
Proof.
  induction l as [|y l IH]; simpl; [auto|].
  intros H. apply in_insert_by_len in H. destruct H as [H | H];
    [left; congruence | right; apply IH, H].
Qed.

Lemma multiword_key_nonempty (d : dict) (k : str) :
  In k (multiword_keys d) -> k <> [].
Proof.
  intros H. apply in_sorted_len_desc, filter_In in H. destruct H as [_ H].
  intros ->. discriminate H.
Qed.

Lemma flat_map_fixed (f : ascii -> str) (u : str) :
  (forall x, is_word_char x = true -> f x = [x]) ->
  Forall (fun x => is_word_char x = true) u -> flat_map f u = u.
Proof.
  intros Hf. induction 1 as [|x u Hx Hu IH]; [reflexivity|].
  simpl. rewrite (Hf x Hx), IH. reflexivity.
Qed.

Lemma clean_punct_spacing_app (u post : str) :
  Forall (fun x => isspace x = false) u ->
  clean_punct_spacing (u ++ post) = u ++ clean_punct_spacing post.
Proof.
  induction 1 as [|x u Hx Hu IH]; [reflexivity|].
  simpl. rewrite Hx. simpl. rewrite IH. reflexivity.
Qed.

Lemma collapse_spaces_app (u post : str) :
  Forall (fun x => isspace x = false) u ->
  collapse_spaces (u ++ post) = u ++ collapse_spaces post.
Proof.
  induction 1 as [|x u Hx Hu IH]; [reflexivity|].
  simpl. rewrite Hx, IH. reflexivity.
Qed.

Section Occurrence.

(** A non-empty string of word characters, once in a result, stays in
    it through the passes whose patterns it is not part of. *)
Variable w : str.
Hypothesis w_word : Forall (fun x => is_word_char x = true) w.
Hypothesis w_nonempty : w <> [].

Lemma w_no_space : Forall (fun x => isspace x = false) w.
Proof.
  apply Forall_forall. intros x Hx. apply word_char_not_space.
  revert x Hx. apply Forall_forall. exact w_word.
Qed.

Lemma occurs_fold_sub_word (ci : bool) (rep : str -> str) (keys : list str) :
  (forall k, In k keys -> k <> []) ->
  in_no_key w keys = true ->
  forall r, occurs w r ->
    occurs w (fold_left (fun r k => sub_word ci k (rep k) r) keys r).
Proof.
  induction keys as [|k keys IH]; intros Hne Hno r Hr; [exact Hr|].
  unfold in_no_key in Hno. cbn [forallb] in Hno.
  apply andb_prop in Hno. destruct Hno as [Hk Hno].
  simpl. apply IH; [intros k' Hk'; apply Hne; right; exact Hk' | exact Hno |].
  apply sub_word_frame; try assumption.
  - apply Hne. left. reflexivity.
  - apply negb_true_iff. exact Hk.
Qed.

Lemma occurs_multiword_pass (d : dict) (r : str) :
  in_no_key w (multiword_keys d) = true ->
  occurs w r -> occurs w (multiword_pass d r).
Proof.
  intros Hno Hr. unfold multiword_pass.
  apply (occurs_fold_sub_word true (fun k => dict_get d k [])); try assumption.
  apply multiword_key_nonempty.
Qed.

Lemma occurs_postposition_pass (r : str) :
  in_no_key w [lit "to"; lit "in"; lit "with"] = true ->
  occurs w r -> occurs w (postposition_pass r).
Proof.
  intros Hno Hr. unfold postposition_pass.
  unfold in_no_key in Hno. cbn [forallb] in Hno.
  apply andb_prop in Hno. destruct Hno as [Hto Hno].
  apply andb_prop in Hno. destruct Hno as [Hin Hno].
  apply andb_prop in Hno. destruct Hno as [Hwith _].
  apply negb_true_iff in Hto, Hin, Hwith.
  apply sub_word_frame; [assumption | discriminate | exact Hwith |].
  apply sub_word_frame; [assumption | discriminate | exact Hin |].
  apply sub_word_frame; [assumption | discriminate | exact Hto |].
  exact Hr.
Qed.

Lemma occurs_flat_map (f : ascii -> str) (r : str) :
  (forall x, is_word_char x = true -> f x = [x]) ->
  occurs w r -> occurs w (flat_map f r).
Proof.
  intros Hf [pre [post ->]]. rewrite !flat_map_app.
  apply occurs_app_l.
  rewrite (flat_map_fixed f w Hf w_word). apply occurs_refl_app.
Qed.

Lemma occurs_slang_pass (r : str) : occurs w r -> occurs w (slang_pass r).
Proof.
  intros Hr. unfold slang_pass.
  destruct (contains _ r).
  - destruct (negb _); [|exact Hr].
    apply occurs_flat_map; [|exact Hr].
    intros x Hx. rewrite (word_char_not_question x Hx). reflexivity.
  - destruct (_ && _); [apply occurs_app_r|]; exact Hr.
Qed.

End Occurrence.

Section OccurrenceSpaces.

(** The passes that only remove or merge whitespace. *)
Variable w : str.
Hypothesis w_nospace : Forall (fun x => isspace x = false) w.
Hypothesis w_nonempty : w <> [].

Lemma occurs_dropwhile (r : str) :
  occurs w r -> occurs w (dropwhile isspace r).
Proof.
  intros [pre [post ->]]. induction pre as [|c pre IH].
  - destruct w_nospace as [|x u Hx Hu]; [congruence|].
    simpl. rewrite Hx. apply (occurs_refl_app (x :: u)).
  - simpl. destruct (isspace c); [exact IH|].
    exists (c :: pre), post. reflexivity.
Qed.

Lemma occurs_clean_punct_spacing (r : str) :
  occurs w r -> occurs w (clean_punct_spacing r).
Proof.
  intros [pre [post ->]]. induction pre as [|c pre IH].
  - simpl. rewrite (clean_punct_spacing_app w post w_nospace).
    apply occurs_refl_app.
  - simpl. destruct (isspace c && _); [exact IH | apply occurs_cons, IH].
Qed.

Lemma occurs_collapse_spaces (r : str) :
  occurs w r -> occurs w (collapse_spaces r).
Proof.
  intros [pre [post ->]]. induction pre as [|c pre IH].
  - simpl. rewrite (collapse_spaces_app w post w_nospace).
    apply occurs_refl_app.
  - simpl. destruct (isspace c); [|apply occurs_cons, IH].
    destruct (pre ++ w ++ post) as [|d rest] eqn:E.
    + exfalso. destruct pre; [|discriminate E].
      destruct w; [congruence | discriminate E].
    + destruct (isspace d); [exact IH | apply occurs_cons, IH].
Qed.

End OccurrenceSpaces.

Lemma occurs_strip (w r : str) :
  Forall (fun x => isspace x = false) w -> w <> [] ->
  occurs w r -> occurs w (strip r).
Proof.
  intros Hw Hne Hr. unfold strip.
  rewrite <- (rev_involutive w). apply occurs_rev.
  apply occurs_dropwhile.
  - apply Forall_rev. exact Hw.
  - intros E. apply Hne. rewrite <- (rev_involutive w), E. reflexivity.
  - apply occurs_rev. apply occurs_dropwhile; assumption.
Qed.

Lemma occurs_polite_pass (w r : str) :
  Forall (fun x => isspace x = false) w -> w <> [] ->
  occurs w r -> occurs w (polite_pass r).
Proof.
  intros Hw Hne Hr. unfold polite_pass.
  destruct (search_letter_at_end r); [|exact Hr].
  apply occurs_app_r, occurs_strip; assumption.
Qed.

Lemma occurs_normalize_spaces (w r : str) :
  Forall (fun x => isspace x = false) w -> w <> [] ->
  occurs w r -> occurs w (normalize_spaces r).
Proof.
  intros Hw Hne Hr. unfold normalize_spaces.
  apply occurs_strip; [assumption | assumption|].
  apply occurs_collapse_spaces; assumption.
Qed.

(** A text of whitespace only has no token. *)

Lemma dropwhile_nil (p : ascii -> bool) (s : str) :
  dropwhile p s = [] -> forallb p s = true.
Proof.
  induction s as [|c s IH]; simpl; [reflexivity|].
  destruct (p c); [exact IH | discriminate].
Qed.

Lemma dropwhile_head (p : ascii -> bool) (s : str) (c : ascii) (r : str) :
  dropwhile p s = c :: r -> p c = false.
Proof.
  induction s as [|x s IH]; simpl; [discriminate|].
  destruct (p x) eqn:E; [exact IH|]. intros H. injection H as -> _. exact E.
Qed.

Lemma strip_nil (s : str) : strip s = [] -> forallb isspace s = true.
Proof.
  unfold strip. intros H.
  assert (H1 : dropwhile isspace (rev (dropwhile isspace s)) = []).
  { rewrite <- (rev_involutive (dropwhile _ (rev _))), H. reflexivity. }
  apply dropwhile_nil in H1.
  destruct (dropwhile isspace s) as [|c r] eqn:E; [apply dropwhile_nil, E|].
  exfalso. apply dropwhile_head in E.
  rewrite forallb_forall in H1. specialize (H1 c).
  rewrite H1 in E; [discriminate|]. apply in_rev. rewrite rev_involutive.
  left. reflexivity.
Qed.

Lemma sub_word_blank (ci : bool) (k rep s : str) :
  forallb isspace s = true -> sub_word ci k rep s = s.
Proof.
  intros H. unfold sub_word.
  assert (Hs : Forall (fun x => is_word_char x = false) s).
  { apply Forall_forall. intros x Hx.
    rewrite forallb_forall in H. specialize (H x Hx).
    destruct (is_word_char x) eqn:E; [|reflexivity].
    apply word_char_not_space in E. congruence. }
  rewrite <- (app_nil_r s) at 1.
  rewrite (sub_word_go_no_boundary ci k rep false s [] Hs None eq_refl).
  simpl. apply app_nil_r.
Qed.

Lemma split_blank (s : str) : forallb isspace s = true -> split s = [].
Proof.
  induction s as [|c s IH]; simpl; [reflexivity|].
  intros H. apply andb_prop in H. destruct H as [Hc Hs].
  rewrite Hc. apply IH, Hs.
Qed.

Lemma tokenize_blank (text : str) :
  is_empty (strip text) = true -> tokenize (apply_phrase_rules text) = [].
Proof.
  intros H. destruct (strip text) eqn:E; [|discriminate]. apply strip_nil in E.
  assert (El : lower text = text).
  { unfold lower. rewrite <- (map_id text) at 2. apply map_ext_in.
    intros c Hc. apply space_lower. rewrite forallb_forall in E. apply E, Hc. }
  assert (Ep : apply_phrase_rules text = text).
  { unfold apply_phrase_rules. rewrite El.
    induction PHRASES as [|pr l IH]; [reflexivity|].
    simpl. rewrite sub_word_blank; [exact IH | exact E]. }
  rewrite Ep. unfold tokenize.
  assert (Es : sub_class_group is_punct tokenize_template text = text).
  { unfold sub_class_group. clear El Ep H.
    induction text as [|c text IH]; [reflexivity|].
    simpl in E. apply andb_prop in E. destruct E as [Hc Ht].
    cbn [flat_map]. rewrite (space_not_punct c Hc), (IH Ht). reflexivity. }
  rewrite Es, (split_blank _ E). reflexivity.
Qed.

(** A token that the translator emits as a string of word characters is
    in the output, unless it is part of a multiword key or of a
    postposition. *)
Lemma emitted_token_in_output
      (text : str) (s : Z) (keep polite post slang : bool) (d : dict)
      (ks : list str) (tok : str) :
  let w := translate_token s keep d ks tok in
  In tok (tokenize (apply_phrase_rules text)) ->
  w <> [] ->
  Forall (fun x => is_word_char x = true) w ->
  in_no_key w (multiword_keys d) = true ->
  (post = true -> in_no_key w [lit "to"; lit "in"; lit "with"] = true) ->
  contains w (convert_to_tenglish text s keep polite post slang d ks) = true.
Proof.
  intros w Htok Hne Hw Hkeys Hpost.
  assert (Hsp : Forall (fun x => isspace x = false) w) by (apply w_no_space, Hw).
  apply occurs_contains.
  unfold convert_to_tenglish.
  destruct (is_empty (strip text)) eqn:E.
  { rewrite (tokenize_blank text E) in Htok. destruct Htok. }
  apply occurs_normalize_spaces; try assumption.
  apply occurs_clean_punct_spacing; try assumption.
  assert (H0 : occurs w
                 (multiword_pass d
                    (join (lit " ")
                       (map (translate_token s keep d ks)
                          (tokenize (apply_phrase_rules text)))))).
  { apply occurs_multiword_pass; try assumption.
    apply occurs_join. apply in_map. exact Htok. }
  assert (H1 : occurs w
                 (if post
                  then postposition_pass
                         (multiword_pass d
                            (join (lit " ")
                               (map (translate_token s keep d ks)
                                  (tokenize (apply_phrase_rules text)))))
                  else multiword_pass d
                         (join (lit " ")
                            (map (translate_token s keep d ks)
                               (tokenize (apply_phrase_rules text)))))).
  { destruct post; [|exact H0].
    apply occurs_postposition_pass; try assumption. apply Hpost. reflexivity. }
  destruct slang, polite;
    repeat first [ apply occurs_polite_pass; [assumption | assumption |]
                 | apply occurs_slang_pass; [assumption |] ];
    exact H1.
Qed.
(** ** The token translator *)

Lemma convert_unfold (text : str) (s : Z) (keep polite post slang : bool)
      (d : dict) (ks : list str) :
  is_empty (strip text) = false ->
  convert_to_tenglish text s keep polite post slang d ks
  = let result := result_before_slang text s keep post d ks in
    let result := if slang then slang_pass result else result in
    let result := if polite then polite_pass result else result in
    normalize_spaces (clean_punct_spacing result).
Proof.
  intros H. unfold convert_to_tenglish, result_before_slang. rewrite H. reflexivity.
Qed.

Lemma lower_nonempty (tok : str) : is_word tok = true -> lower tok <> [].
Proof. destruct tok; [discriminate | discriminate]. Qed.

Lemma letter_lower_word (c : ascii) :
  is_ascii_letter c = true -> is_word_char (lower_char c) = true.
Proof. destruct c as [[] [] [] [] [] [] [] []]; vm_compute; congruence. Qed.

Lemma letters_lower_word (tok : str) :
  forallb is_ascii_letter tok = true ->
  Forall (fun x => is_word_char x = true) (lower tok).
Proof.
  intros H. apply Forall_forall. intros x Hx. apply in_map_iff in Hx.
  destruct Hx as [c [<- Hc]]. apply letter_lower_word.
  rewrite forallb_forall in H. apply H, Hc.
Qed.

Lemma endswith_app (word suffix : str) :
  endswith word suffix = true ->
  word = firstn (length word - length suffix) word ++ suffix.
Proof.
  unfold endswith. intros H. apply andb_prop in H. destruct H as [_ H].
  apply str_eqb_eq in H. rewrite <- H at 2. symmetry. apply firstn_skipn.
Qed.




(** C2, counterexample. At strength 0 the token [go] of ["I will go"] is a
    dictionary key outside the glue set and is not kept, yet it does not
    remain in the output: the multiword pass rewrites ["will go"]. *)
Lemma strength_zero_go_is_rewritten :
  tokenize (apply_phrase_rules (lit "I will go")) = [lit "i"; lit "will"; lit "go"]
  /\ dict_mem W (lit "go") = true
  /\ set_mem (lit "go") glue_set = false
  /\ set_mem (lit "go") KEEP_ENGLISH_DEFAULT = false
  /\ convert_to_tenglish (lit "I will go") 0 true false true false
       W KEEP_ENGLISH_DEFAULT = lit "nenu velta"
  /\ contains (lit "go")
       (convert_to_tenglish (lit "I will go") 0 true false true false
          W KEEP_ENGLISH_DEFAULT) = false.
Proof. repeat split; vm_compute; reflexivity. Qed.

(** C2, as amended. For a word token whose lower-case or singular form is
    a dictionary key and which the keep-English check does not exclude,
    the token translator emits the translation (the dictionary value with
    [to_title_like] applied) whenever the strength is at least 35; below
    35 it emits the translation if the lower-case or singular form is in
    the glue set and the lower-case token otherwise.  So at strength 100
    it translates every such token and at strength 0 exactly those of the
    glue set.  A token left in English below the threshold is in the
    output when it is made of letters and its lower-case form is not a
    part (case ignored) of a multiword key of the dictionary nor, if the
    postposition styling is on, of [to], [in] or [with]. *)
Theorem strength_gating
        (text : str) (telugu_strength : Z)
        (keep_english_nouns polite_mode add_postpositions add_telangana_slang : bool)
        (word_dict : dict) (keep_english_set : list str) (tok : str) :
  let w := lower tok in
  let w_s := english_plural_to_singular w in
  let translation :=
    to_title_like tok (dict_get word_dict w (dict_get word_dict w_s w)) in
  let emitted :=
    translate_token telugu_strength keep_english_nouns word_dict keep_english_set tok in
  let output :=
    convert_to_tenglish text telugu_strength keep_english_nouns polite_mode
      add_postpositions add_telangana_slang word_dict keep_english_set in
  is_word tok = true ->
  dict_mem word_dict w = true \/ dict_mem word_dict w_s = true ->
  keep_english_nouns && (set_mem w keep_english_set || set_mem w_s keep_english_set)
  = false ->
  ((35 <= telugu_strength)%Z -> emitted = translation)
  /\ ((telugu_strength < 35)%Z ->
      (set_mem w glue_set = true \/ set_mem w_s glue_set = true -> emitted = translation)
      /\ (set_mem w glue_set = false /\ set_mem w_s glue_set = false ->
          emitted = w
          /\ (In tok (tokenize (apply_phrase_rules text)) ->
              forallb is_ascii_letter tok = true ->
              in_no_key w (multiword_keys word_dict) = true ->
              (add_postpositions = true ->
               in_no_key w [lit "to"; lit "in"; lit "with"] = true) ->
              contains w output = true)))
  /\ (telugu_strength = 100%Z -> emitted = translation)
  /\ (telugu_strength = 0%Z ->
      emitted = if set_mem w glue_set || set_mem w_s glue_set then translation else w).
Proof.
  intros w w_s translation emitted output Hword Hdict Hkeep.
  assert (Hin : dict_mem word_dict w || dict_mem word_dict w_s = true)
    by (apply orb_true_iff; exact Hdict).
  assert (E : emitted
              = if (35 <=? telugu_strength)%Z then translation
                else if set_mem w glue_set || set_mem w_s glue_set
                     then translation else w).
  { unfold emitted, translate_token. rewrite Hword. simpl negb. cbv iota.
    fold w. fold w_s. rewrite Hkeep, Hin. fold translation.
    destruct (35 <=? telugu_strength)%Z; reflexivity. }
  split; [|split; [|split]].
  - intros H. rewrite E. apply Z.leb_le in H. rewrite H. reflexivity.
  - intros H. apply Z.leb_gt in H. split.
    + intros Hg. rewrite E, H. apply orb_true_iff in Hg. rewrite Hg. reflexivity.
    + intros [Hg1 Hg2].
      assert (Ew : emitted = w) by (rewrite E, H, Hg1, Hg2; reflexivity).
      split; [exact Ew|].
      intros Htok Hletters Hkeys Hpost. unfold output.
      rewrite <- Ew at 1. unfold emitted.
      apply emitted_token_in_output; fold emitted; rewrite ?Ew; try assumption.
      * apply lower_nonempty, Hword.
      * apply letters_lower_word, Hletters.
  - intros ->. rewrite E. reflexivity.
  - intros ->. rewrite E. reflexivity.
Qed.

Lemma strength_gating_witness :
  is_word (lit "friends") = true
  /\ (dict_mem W (lower (lit "friends")) = true
      \/ dict_mem W (english_plural_to_singular (lower (lit "friends"))) = true)
  /\ In (lit "friends") (tokenize (apply_phrase_rules (lit "My friends are good")))
  /\ translate_token 100 true W KEEP_ENGLISH_DEFAULT (lit "friends") = lit "friend"
  /\ translate_token 0 true W KEEP_ENGLISH_DEFAULT (lit "friends") = lit "friends"
  /\ contains (lit "friends")
       (convert_to_tenglish (lit "My friends are good") 0 true false true false
          W KEEP_ENGLISH_DEFAULT) = true.
Proof.
  assert (Hw : is_word (lit "friends") = true) by reflexivity.
  assert (Hd : dict_mem W (lower (lit "friends")) = true
               \/ dict_mem W (english_plural_to_singular (lower (lit "friends"))) = true)
    by (right; reflexivity).
  assert (Ht : In (lit "friends")
                  (tokenize (apply_phrase_rules (lit "My friends are good"))))
    by (right; left; reflexivity).
  assert (Hlow : (0 < 35)%Z) by reflexivity.
  pose proof (strength_gating (lit "My friends are good") 100 true false true false
                W KEEP_ENGLISH_DEFAULT (lit "friends")
                Hw Hd eq_refl) as [_ [_ [H100 _]]].
  pose proof (strength_gating (lit "My friends are good") 0 true false true false
                W KEEP_ENGLISH_DEFAULT (lit "friends")
                Hw Hd eq_refl) as [_ [Hlt [_ H0]]].
  split; [exact Hw | split; [exact Hd | split; [exact Ht | split; [|split]]]].
  - exact (H100 eq_refl).
  - exact (H0 eq_refl).
  - exact (proj2 (proj2 (Hlt Hlow) (conj eq_refl eq_refl))
             Ht eq_refl eq_refl (fun _ => eq_refl)).
Defined.



(** ** The output is lower case *)


Lemma isupper_lower_char (c : ascii) : isupper (lower_char c) = false.
Proof. destruct c as [[] [] [] [] [] [] [] []]; reflexivity. Qed.













(** ** The Telangana slang pass *)




(** ** The postposition pass acts on whole words *)

Lemma runs_cons_shape (c : ascii) (s : str) :
  exists r rs, runs (c :: s) = (c :: r) :: rs.
Proof.
  simpl. destruct (runs s) as [|[|d r] rs]; [eauto | eauto |].
  destruct (Bool.eqb (is_word_char c) (is_word_char d)); eauto.
Qed.

Lemma concat_runs (s : str) : concat (runs s) = s.
Proof.
  induction s as [|c s IH]; [reflexivity|].
  simpl. destruct s as [|d s']; [reflexivity|].
  destruct (runs_cons_shape d s') as [r [rs E]].
  rewrite E in *.
  destruct (Bool.eqb (is_word_char c) (is_word_char d)); simpl in *; rewrite IH;
    reflexivity.
Qed.

Lemma runs_segmented (s : str) :
  forall b, (b = true -> opt_word (hd_error s) = false) -> segmented b (runs s).
Proof.
  induction s as [|c s IH]; intros b Hb; [constructor|].
  simpl. destruct s as [|d s'].
  - simpl. destruct (is_word_char c) eqn:Ec.
    + destruct b; [specialize (Hb eq_refl); simpl in Hb; congruence|].
      constructor; [exact Ec | constructor | constructor].
    + apply segmented_other; [exact Ec | constructor | constructor].
  - destruct (runs_cons_shape d s') as [r [rs E]]. rewrite E in *.
    destruct (Bool.eqb (is_word_char c) (is_word_char d)) eqn:Ecd.
    + apply Bool.eqb_prop in Ecd.
      assert (H := IH false (fun H => False_ind _ (Bool.diff_false_true H))).
      inversion H as [| c' seg' l' Hd Hseg Hl | b' c' seg' l' Hd Hseg Hl]; subst.
      * destruct b.
        { specialize (Hb eq_refl). simpl in Hb. congruence. }
        constructor; [congruence | constructor; assumption | exact Hl].
      * apply segmented_other; [congruence | constructor; assumption | exact Hl].
    + apply Bool.eqb_false_iff in Ecd.
      destruct (is_word_char c) eqn:Ec.
      * assert (Ed : is_word_char d = false) by (destruct (is_word_char d); congruence).
        destruct b; [specialize (Hb eq_refl); simpl in Hb; congruence|].
        constructor; [exact Ec | constructor |].
        apply IH. intros _. exact Ed.
      * apply segmented_other; [exact Ec | constructor |].
        apply IH. intros H. discriminate H.
Qed.

Section WholeWordPattern.

(** A case-sensitive pattern [\b k \b] whose literal is a non-empty
    string of word characters, and a replacement of the same kind. *)
Variables (k0 : ascii) (k' : str) (r0 : ascii) (rep' : str).
Hypothesis k0_word : is_word_char k0 = true.
Hypothesis k'_word : Forall (fun x => is_word_char x = true) k'.
Hypothesis r0_word : is_word_char r0 = true.
Hypothesis rep'_word : Forall (fun x => is_word_char x = true) rep'.

Let k := k0 :: k'.
Let rep := r0 :: rep'.

Lemma str_eqb_cons (x y : ascii) (a b : str) :
  str_eqb (x :: a) (y :: b) = Ascii.eqb y x && str_eqb a b.
Proof.
  destruct (Ascii.eqb_spec y x) as [->|Hn]; simpl.
  - destruct (str_eqb a b) eqn:E.
    + apply str_eqb_eq in E. subst. apply str_eqb_refl.
    + apply str_eqb_neq in E. apply str_eqb_neq. congruence.
  - apply str_eqb_neq. congruence.
Qed.

Lemma lit_then_boundary_in_word (p : str) :
  Forall (fun x => is_word_char x = true) p ->
  forall (w rest : str) (prev : option ascii),
    opt_word prev = true ->
    Forall (fun x => is_word_char x = true) w ->
    opt_word (hd_error rest) = false ->
    lit_then_boundary false p prev (w ++ rest) = str_eqb w p.
Proof.
  induction 1 as [|x p Hx Hp IH]; intros w rest prev Hprev Hw Hrest.
  - simpl. unfold boundary. rewrite Hprev.
    destruct Hw as [|y w Hy Hw]; simpl.
    + rewrite Hrest. reflexivity.
    + rewrite Hy. reflexivity.
  - destruct Hw as [|y w Hy Hw].
    + simpl. destruct rest as [|r rest]; [reflexivity|].
      simpl in Hrest. simpl.
      destruct (Ascii.eqb_spec x r) as [->|_]; [congruence | reflexivity].
    + rewrite str_eqb_cons. simpl. f_equal.
      apply IH; [exact Hy | exact Hw | exact Hrest].
Qed.

Lemma segmented_true_head (l : list str) :
  segmented true l -> opt_word (hd_error (concat l)) = false.
Proof.
  intros H. inversion H; subst; [reflexivity|]. simpl. assumption.
Qed.

Lemma sub_word_go_segments (l : list str) :
  forall prev, segmented (opt_word prev) l ->
    sub_word_go false k rep 0 prev (concat l)
    = concat (map (replace_segment k rep) l).
Proof.
  induction l as [|seg l IH]; intros prev H; [reflexivity|].
  inversion H as [| c s l' Hc Hs Hl Hb | b c s l' Hc Hs Hl]; subst.
  - (* a run of word characters, after something that is not one *)
    assert (Hhd : opt_word (hd_error (concat l)) = false)
      by (apply segmented_true_head; exact Hl).
    assert (Hlast : opt_word (last_or (Some c) s) = true)
      by (apply last_or_class with (cls := true); assumption).
    assert (Hmatch : word_lit_at false k prev ((c :: s) ++ concat l)
                     = str_eqb (c :: s) k).
    { unfold word_lit_at, boundary. simpl hd_error. simpl opt_word at 2.
      rewrite <- Hb, Hc. simpl xorb. cbv iota. simpl.
      unfold k. rewrite str_eqb_cons. simpl. f_equal.
      apply lit_then_boundary_in_word; try assumption. }
    simpl concat. simpl map. unfold replace_segment at 1.
    change ((c :: s) ++ concat l) with (c :: (s ++ concat l)) in *.
    simpl sub_word_go. rewrite Hmatch.
    destruct (str_eqb (c :: s) k) eqn:E.
    + apply str_eqb_eq in E. unfold k in E. injection E as -> ->.
      fold k. simpl length. rewrite Nat.sub_0_r.
      rewrite sub_word_go_skip. unfold rep at 3. simpl. f_equal. f_equal.
      apply IH. rewrite Hlast. exact Hl.
    + rewrite (sub_word_go_no_boundary false k rep true s (concat l) Hs (Some c) Hc).
      simpl. f_equal. f_equal. apply IH. rewrite Hlast. exact Hl.
  - (* a run of other characters *)
    assert (Hlast : opt_word (last_or (Some c) s) = false)
      by (apply last_or_class with (cls := false); assumption).
    assert (Hmatch : word_lit_at false k prev ((c :: s) ++ concat l) = false).
    { unfold word_lit_at, k. simpl.
      destruct (Ascii.eqb_spec k0 c) as [E|_]; [congruence|].
      apply andb_false_r. }
    assert (Hne : str_eqb (c :: s) k = false).
    { apply str_eqb_neq. unfold k. intros E. injection E as E _. congruence. }
    simpl concat. simpl map. unfold replace_segment at 1. rewrite Hne.
    change ((c :: s) ++ concat l) with (c :: (s ++ concat l)) in *.
    simpl sub_word_go. rewrite Hmatch.
    rewrite (sub_word_go_no_boundary false k rep false s (concat l) Hs (Some c) Hc).
    simpl. f_equal. f_equal. apply IH. rewrite Hlast. exact Hl.
Qed.

Lemma segmented_replace (l : list str) :
  forall b, segmented b l -> segmented b (map (replace_segment k rep) l).
Proof.
  induction l as [|seg l IH]; intros b H; [constructor|].
  inversion H as [| c s l' Hc Hs Hl | b' c s l' Hc Hs Hl]; subst; simpl.
  - unfold replace_segment at 1. destruct (str_eqb (c :: s) k).
    + unfold rep. constructor; [assumption | assumption | apply IH, Hl].
    + constructor; [assumption | assumption | apply IH, Hl].
  - assert (Hne : str_eqb (c :: s) k = false).
    { apply str_eqb_neq. unfold k. intros E. injection E as E _. congruence. }
    unfold replace_segment at 1. rewrite Hne.
    apply segmented_other; [assumption | assumption | apply IH, Hl].
Qed.

Lemma sub_word_segments (l : list str) :
  segmented false l ->
  sub_word false k rep (concat l) = concat (map (replace_segment k rep) l).
Proof. intros H. apply sub_word_go_segments. exact H. Qed.

End WholeWordPattern.

Lemma style_word_as_replacements (w : str) :
  replace_segment (lit "with") (lit "tho")
    (replace_segment (lit "in") (lit "lo")
       (replace_segment (lit "to") (lit "ki") w))
  = style_word w.
Proof.
  unfold replace_segment, style_word.
  destruct (str_eqb w (lit "to")) eqn:Eto; [reflexivity|].
  destruct (str_eqb w (lit "in")) eqn:Ein; [reflexivity|].
  reflexivity.
Qed.

Ltac word_chars := repeat constructor.


(** * Further properties of the code *)

(** ** Whitespace normalization *)

Lemma dropwhile_split (p : ascii -> bool) (s : str) :
  exists a, s = a ++ dropwhile p s /\ forallb p a = true.
Proof.
  induction s as [|c s [a [E Ha]]]; [exists []; split; reflexivity|].
  simpl. destruct (p c) eqn:Ec.
  - exists (c :: a). split; [simpl; f_equal; exact E | simpl; rewrite Ec; exact Ha].
  - exists []. split; reflexivity.
Qed.

Lemma dropwhile_fixed (s : str) :
  starts_with_space s = false -> dropwhile isspace s = s.
Proof. destruct s as [|c s]; [reflexivity|]. simpl. intros ->. reflexivity. Qed.

Lemma dropwhile_starts (s : str) : starts_with_space (dropwhile isspace s) = false.
Proof.
  destruct (dropwhile isspace s) as [|c r] eqn:E; [reflexivity|].
  simpl. apply (dropwhile_head isspace s c r E).
Qed.

Lemma strip_infix (s : str) :
  exists pre post, s = pre ++ strip s ++ post.
Proof.
  unfold strip.
  destruct (dropwhile_split isspace s) as [a [Ea _]].
  destruct (dropwhile_split isspace (rev (dropwhile isspace s))) as [b [Eb _]].
  exists a, (rev b).
  rewrite Ea at 1. f_equal.
  rewrite <- (rev_involutive (dropwhile isspace s)) at 1.
  rewrite Eb at 1. apply rev_app_distr.
Qed.

Lemma strip_no_trailing_space (s : str) : starts_with_space (rev (strip s)) = false.
Proof. unfold strip. rewrite rev_involutive. apply dropwhile_starts. Qed.

Lemma strip_no_leading_space (s : str) : starts_with_space (strip s) = false.
Proof.
  unfold strip.
  destruct (dropwhile_split isspace (rev (dropwhile isspace s))) as [b [Eb _]].
  pose proof (dropwhile_starts s) as Hd.
  destruct (dropwhile isspace (rev (dropwhile isspace s))) as [|c e] eqn:E;
    [reflexivity|].
  assert (Hrev : dropwhile isspace s = rev (c :: e) ++ rev b).
  { rewrite <- (rev_involutive (dropwhile isspace s)), Eb. apply rev_app_distr. }
  rewrite Hrev in Hd.
  destruct (rev (c :: e)) as [|x r] eqn:Er.
  - apply (f_equal (@length ascii)) in Er. rewrite length_rev in Er. discriminate.
  - exact Hd.
Qed.

Lemma single_spaced_app (a b : str) :
  single_spaced (a ++ b) = true -> single_spaced a = true /\ single_spaced b = true.
Proof.
  induction a as [|c a IH]; [auto|].
  simpl. intros H. apply andb_prop in H. destruct H as [Hc H].
  destruct (IH H) as [Ha Hb]. split; [|exact Hb].
  rewrite Ha, andb_true_r.
  destruct (isspace c); [|reflexivity].
  apply andb_prop in Hc. destruct Hc as [Hc1 Hc2]. rewrite Hc1. simpl.
  destruct a; [reflexivity | exact Hc2].
Qed.

Lemma collapse_spaces_head (d : ascii) (s : str) :
  isspace d = false -> starts_with_space (collapse_spaces (d :: s)) = false.
Proof. intros H. simpl. rewrite H. simpl. exact H. Qed.

Lemma collapse_spaces_single_spaced (s : str) :
  single_spaced (collapse_spaces s) = true.
Proof.
  induction s as [|c s IH]; [reflexivity|].
  simpl. destruct (isspace c) eqn:Ec.
  - destruct s as [|d s']; [reflexivity|].
    destruct (isspace d) eqn:Ed; [exact IH|].
    change (single_spaced (" "%char :: collapse_spaces (d :: s')) = true).
    cbn [single_spaced]. rewrite IH, (collapse_spaces_head d s' Ed). reflexivity.
  - cbn [single_spaced]. rewrite Ec, IH. reflexivity.
Qed.

Lemma collapse_spaces_fixed (s : str) :
  single_spaced s = true -> collapse_spaces s = s.
Proof.
  induction s as [|c s IH]; [reflexivity|].
  cbn [single_spaced]. intros H. apply andb_prop in H. destruct H as [Hc Hs].
  simpl. destruct (isspace c).
  - apply andb_prop in Hc. destruct Hc as [Hc Hn].
    apply Ascii.eqb_eq in Hc. subst c.
    destruct s as [|d s']; [reflexivity|].
    simpl in Hn. apply negb_true_iff in Hn. rewrite Hn. f_equal. apply IH, Hs.
  - f_equal. apply IH, Hs.
Qed.

Lemma strip_fixed (s : str) :
  starts_with_space s = false -> starts_with_space (rev s) = false -> strip s = s.
Proof.
  intros H1 H2. unfold strip.
  rewrite (dropwhile_fixed s H1), (dropwhile_fixed (rev s) H2).
  apply rev_involutive.
Qed.

(** X1. The result of [normalize_spaces] does not start and does not end
    with whitespace, and its only whitespace characters are single plain
    spaces, never two in a row. *)
Theorem normalize_spaces_normal_form (s : str) :
  starts_with_space (normalize_spaces s) = false
  /\ starts_with_space (rev (normalize_spaces s)) = false
  /\ single_spaced (normalize_spaces s) = true.
Proof.
  unfold normalize_spaces. split; [apply strip_no_leading_space|].
  split; [apply strip_no_trailing_space|].
  destruct (strip_infix (collapse_spaces s)) as [pre [post E]].
  pose proof (collapse_spaces_single_spaced s) as H. rewrite E in H.
  apply single_spaced_app in H. destruct H as [_ H].
  apply single_spaced_app in H. apply H.
Qed.

Lemma normalize_spaces_fixed (r : str) :
  starts_with_space r = false -> starts_with_space (rev r) = false ->
  single_spaced r = true -> normalize_spaces r = r.
Proof.
  intros H1 H2 H3. unfold normalize_spaces.
  rewrite (collapse_spaces_fixed r H3). apply strip_fixed; assumption.
Qed.

(** X2. [normalize_spaces] is idempotent, and it leaves every output of
    [convert_to_tenglish] as it is: an output is already normalized. *)
Theorem normalize_spaces_idempotent
        (s text : str) (telugu_strength : Z)
        (keep_english_nouns polite_mode add_postpositions add_telangana_slang : bool)
        (word_dict : dict) (keep_english_set : list str) :
  normalize_spaces (normalize_spaces s) = normalize_spaces s
  /\ normalize_spaces
       (convert_to_tenglish text telugu_strength keep_english_nouns polite_mode
          add_postpositions add_telangana_slang word_dict keep_english_set)
     = convert_to_tenglish text telugu_strength keep_english_nouns polite_mode
         add_postpositions add_telangana_slang word_dict keep_english_set.
Proof.
  assert (H : forall x, normalize_spaces (normalize_spaces x) = normalize_spaces x).
  { intros x. destruct (normalize_spaces_normal_form x) as [H1 [H2 H3]].
    apply normalize_spaces_fixed; assumption. }
  split; [apply H|].
  unfold convert_to_tenglish.
  destruct (is_empty (strip text)); [reflexivity | apply H].
Qed.

(** ** Tokens *)

Lemma token_like_spec (t : str) :
  token_like t = true ->
  t <> [] /\ Forall (fun c => isspace c = false) t
  /\ Forall (fun c => is_punct c = false) t.
Proof.
  unfold token_like. intros H. apply andb_prop in H. destruct H as [Hne H].
  split; [intros ->; discriminate Hne|].
  rewrite forallb_forall in H.
  split; apply Forall_forall; intros c Hc; specialize (H c Hc);
    apply andb_prop in H; destruct H as [H1 H2]; apply negb_true_iff; assumption.
Qed.

Lemma token_like_intro (t : str) :
  t <> [] -> Forall (fun c => isspace c = false) t ->
  Forall (fun c => is_punct c = false) t -> token_like t = true.
Proof.
  intros Hne Hs Hp. unfold token_like.
  apply andb_true_intro. split; [destruct t; [congruence | reflexivity]|].
  apply forallb_forall. intros x Hx.
  rewrite Forall_forall in Hs, Hp. rewrite (Hs x Hx), (Hp x Hx). reflexivity.
Qed.

Lemma split_shape (s : str) :
  Forall (fun t => t <> [] /\ Forall (fun c => isspace c = false) t) (split s).
Proof.
  induction s as [|c s IH]; [constructor|].
  simpl. destruct (isspace c) eqn:Ec; [exact IH|].
  destruct s as [|d s'].
  - repeat constructor; [discriminate | exact Ec].
  - destruct (isspace d).
    + constructor; [|exact IH]. split; [discriminate | repeat constructor; exact Ec].
    + destruct IH as [|t ts [Ht1 Ht2] Hts]; simpl.
      * repeat constructor; [discriminate | exact Ec].
      * constructor; [|exact Hts]. split; [discriminate | constructor; assumption].
Qed.

Lemma split_cons_word (c d : ascii) (s : str) :
  isspace c = false -> isspace d = false ->
  split (c :: d :: s) = cons_head c (split (d :: s)).
Proof. intros Hc Hd. cbn [split]. rewrite Hc, Hd. reflexivity. Qed.

Lemma split_cons_end (c d : ascii) (s : str) :
  isspace c = false -> isspace d = true -> split (c :: d :: s) = [c] :: split s.
Proof. intros Hc Hd. cbn [split]. rewrite Hc, Hd. reflexivity. Qed.

Lemma split_single (x : str) :
  x <> [] -> Forall (fun c => isspace c = false) x -> split x = [x].
Proof.
  intros Hne Hx. induction Hx as [|c x Hc Hx IH]; [congruence|].
  destruct x as [|d x']; [simpl; rewrite Hc; reflexivity|].
  inversion Hx as [|? ? Hd _]; subst.
  rewrite (split_cons_word c d x' Hc Hd), (IH ltac:(discriminate)). reflexivity.
Qed.

Lemma split_app_space (x rest : str) (sp : ascii) :
  x <> [] -> Forall (fun c => isspace c = false) x -> isspace sp = true ->
  split (x ++ sp :: rest) = x :: split rest.
Proof.
  intros Hne Hx Hsp. induction Hx as [|c x Hc Hx IH]; [congruence|].
  destruct x as [|d x'].
  - apply (split_cons_end c sp rest Hc Hsp).
  - inversion Hx as [|? ? Hd _]; subst.
    change ((c :: d :: x') ++ sp :: rest) with (c :: d :: (x' ++ sp :: rest)).
    rewrite (split_cons_word c d _ Hc Hd).
    change (d :: x' ++ sp :: rest) with ((d :: x') ++ sp :: rest).
    rewrite (IH ltac:(discriminate)). reflexivity.
Qed.

Lemma split_join (toks : list str) :
  Forall (fun t => t <> [] /\ Forall (fun c => isspace c = false) t) toks ->
  split (join (lit " ") toks) = toks.
Proof.
  induction 1 as [|x l [Hne Hx] Hl IH]; [reflexivity|].
  destruct l as [|y l'].
  - simpl. apply split_single; assumption.
  - change (join (lit " ") (x :: y :: l'))
      with (x ++ " "%char :: join (lit " ") (y :: l')).
    rewrite (split_app_space x _ " "%char Hne Hx eq_refl), IH. reflexivity.
Qed.

Lemma sub_class_group_fixed (cls : ascii -> bool) (template s : str) :
  Forall (fun c => cls c = false) s -> sub_class_group cls template s = s.
Proof.
  unfold sub_class_group. induction 1 as [|c s Hc Hs IH]; [reflexivity|].
  cbn [flat_map]. rewrite Hc, IH. reflexivity.
Qed.

Lemma strip_nonempty (t : str) :
  t <> [] -> Forall (fun c => isspace c = false) t -> is_empty (strip t) = false.
Proof.
  intros Hne Ht. destruct (strip t) eqn:E; [|reflexivity].
  apply strip_nil in E. destruct Ht as [|c t Hc _]; [congruence|].
  simpl in E. rewrite Hc in E. discriminate.
Qed.

Lemma filter_all {A : Type} (f : A -> bool) (l : list A) :
  Forall (fun x => f x = true) l -> filter f l = l.
Proof.
  induction 1 as [|x l Hx Hl IH]; [reflexivity|].
  simpl. rewrite Hx, IH. reflexivity.
Qed.

Lemma tokenize_is_split (text : str) :
  tokenize text = split (sub_class_group is_punct tokenize_template text).
Proof.
  unfold tokenize. apply filter_all.
  eapply Forall_impl; [|apply split_shape].
  intros t [Hne Ht]. simpl. rewrite (strip_nonempty t Hne Ht). reflexivity.
Qed.

Lemma tokenize_join (toks : list str) :
  forallb token_like toks = true -> tokenize (join (lit " ") toks) = toks.
Proof.
  intros H. rewrite tokenize_is_split.
  assert (Hall : Forall (fun t => token_like t = true) toks)
    by (apply Forall_bool; exact H).
  rewrite sub_class_group_fixed.
  - apply split_join. eapply Forall_impl; [|exact Hall].
    intros t Ht. apply token_like_spec in Ht. destruct Ht as [H1 [H2 _]]. auto.
  - apply Forall_join; [repeat constructor|].
    eapply Forall_impl; [|exact Hall].
    intros t Ht. apply token_like_spec in Ht. apply Ht.
Qed.

Lemma tokenize_token_like (text : str) : forallb token_like (tokenize text) = true.
Proof.
  apply forallb_forall. intros t Ht.
  pose proof (tokenize_no_punctuation text) as Hp.
  rewrite Forall_forall in Hp. specialize (Hp t Ht).
  rewrite tokenize_is_split in Ht.
  pose proof (split_shape (sub_class_group is_punct tokenize_template text)) as Hs.
  rewrite Forall_forall in Hs. destruct (Hs t Ht) as [Hne Hns].
  apply token_like_intro; assumption.
Qed.

(** X3. [tokenize] returns the whitespace-separated pieces of the text
    after the substitution: its filter drops nothing.  Every token is
    non-empty and holds neither whitespace nor a punctuation mark, and
    tokenizing the tokens joined by spaces gives the same tokens again. *)
Theorem tokenize_shape (text : str) :
  tokenize text = split (sub_class_group is_punct tokenize_template text)
  /\ forallb token_like (tokenize text) = true
  /\ tokenize (join (lit " ") (tokenize text)) = tokenize text.
Proof.
  split; [apply tokenize_is_split|].
  split; [apply tokenize_token_like|].
  apply tokenize_join, tokenize_token_like.
Qed.

(** X4. Round trip of [" ".join] and [tokenize]: a list of non-empty
    strings without whitespace and without punctuation mark, joined by
    single spaces, is tokenized into that list. *)
Theorem tokenize_join_round_trip (toks : list str) :
  forallb token_like toks = true -> tokenize (join (lit " ") toks) = toks.
Proof. apply tokenize_join. Qed.

Lemma tokenize_join_round_trip_witness :
  forallb token_like [lit "nenu"; lit "can't"; lit "a1-b"] = true
  /\ tokenize (join (lit " ") [lit "nenu"; lit "can't"; lit "a1-b"])
     = [lit "nenu"; lit "can't"; lit "a1-b"].
Proof.
  split; [reflexivity|].
  apply (tokenize_join_round_trip [lit "nenu"; lit "can't"; lit "a1-b"]).
  reflexivity.
Defined.

Lemma dropwhile_app_all (p : ascii -> bool) (a b : str) :
  forallb p a = true -> dropwhile p (a ++ b) = dropwhile p b.
Proof.
  induction a as [|c a IH]; [reflexivity|].
  simpl. intros H. apply andb_prop in H. destruct H as [Hc Ha].
  rewrite Hc. apply IH, Ha.
Qed.

(** X5. [is_word] accepts exactly the non-empty strings of letters and
    apostrophes and those strings followed by one newline (the [$] of the
    pattern also matches before a final newline).  On a token of
    [tokenize], which holds no whitespace, it is the test that every
    character is a letter or an apostrophe. *)
Theorem is_word_accepts (tok : str) :
  (is_word tok = true <->
   exists w, w <> [] /\ forallb is_letter_or_apostrophe w = true
             /\ (tok = w \/ tok = w ++ ["010"%char]))
  /\ (forall text, In tok (tokenize text) ->
                   is_word tok = forallb is_letter_or_apostrophe tok).
Proof.
  split; [split|].
  - intros H. unfold is_word in H. destruct tok as [|c t]; [discriminate|].
    apply andb_prop in H. destruct H as [Hc H].
    assert (Ed : dropwhile is_letter_or_apostrophe (c :: t)
                 = dropwhile is_letter_or_apostrophe t)
      by (simpl; rewrite Hc; reflexivity).
    rewrite Ed in H.
    destruct (dropwhile_split is_letter_or_apostrophe t) as [a [Ea Ha]].
    exists (c :: a). split; [discriminate|].
    split; [simpl; rewrite Hc; exact Ha|].
    destruct (dropwhile is_letter_or_apostrophe t) as [|n [|m r]];
      [left | right | discriminate].
    + rewrite app_nil_r in Ea. rewrite <- Ea. reflexivity.
    + apply N.eqb_eq in H. simpl. rewrite Ea at 1. do 3 f_equal.
      unfold code in H. rewrite <- (ascii_N_embedding n), H. reflexivity.
  - intros [w [Hne [Hw [-> | ->]]]]; destruct w as [|c w]; try congruence;
      simpl in Hw; apply andb_prop in Hw; destruct Hw as [Hc Hw].
    + assert (Ed : dropwhile is_letter_or_apostrophe (c :: w) = [])
        by (simpl; rewrite Hc; apply dropwhile_all, Hw).
      unfold is_word. rewrite Ed, Hc. reflexivity.
    + change ((c :: w) ++ ["010"%char]) with (c :: (w ++ ["010"%char])).
      assert (Ed : dropwhile is_letter_or_apostrophe (c :: (w ++ ["010"%char]))
                   = ["010"%char])
        by (simpl; rewrite Hc; rewrite (dropwhile_app_all _ _ _ Hw); reflexivity).
      unfold is_word. rewrite Ed, Hc. reflexivity.
  - intros text Htok.
    pose proof (tokenize_token_like text) as H. rewrite forallb_forall in H.
    destruct (token_like_spec tok (H tok Htok)) as [Hne [Hns _]].
    destruct (forallb is_letter_or_apostrophe tok) eqn:E.
    + destruct tok as [|c t]; [congruence|].
      assert (Ed : dropwhile is_letter_or_apostrophe (c :: t) = [])
        by (apply dropwhile_all, E).
      simpl in E. apply andb_prop in E. destruct E as [Hc _].
      unfold is_word. rewrite Ed, Hc. reflexivity.
    + destruct tok as [|c t]; [congruence|].
      destruct (is_letter_or_apostrophe c) eqn:Hc;
        [|unfold is_word; rewrite Hc; reflexivity].
      assert (Ed : dropwhile is_letter_or_apostrophe (c :: t)
                   = dropwhile is_letter_or_apostrophe t)
        by (simpl; rewrite Hc; reflexivity).
      unfold is_word. rewrite Hc, Ed, andb_true_l.
      destruct (dropwhile_split is_letter_or_apostrophe t) as [a [Ea Ha]].
      destruct (dropwhile is_letter_or_apostrophe t) as [|n [|m r]];
        [|  | reflexivity].
      * exfalso. rewrite app_nil_r in Ea. rewrite <- Ea in Ha.
        simpl in E. rewrite Hc, Ha in E. discriminate.
      * destruct (N.eqb (code n) 10) eqn:En; [|reflexivity].
        exfalso. rewrite Forall_forall in Hns.
        assert (Hin : In n (c :: t))
          by (right; rewrite Ea; apply in_or_app; right; left; reflexivity).
        specialize (Hns n Hin). apply N.eqb_eq in En.
        unfold isspace, in_range in Hns. rewrite En in Hns. discriminate.
Qed.

Lemma is_word_accepts_witness :
  (exists w, w <> [] /\ forallb is_letter_or_apostrophe w = true
             /\ ("a" :: "b" :: "010" :: nil = w
                 \/ "a" :: "b" :: "010" :: nil = w ++ ["010"]))%char
  /\ is_word ("a" :: "b" :: "010" :: nil)%char = true
  /\ In (lit "can't") (tokenize (lit "I can't go"))
  /\ is_word (lit "can't") = forallb is_letter_or_apostrophe (lit "can't").
Proof.
  assert (Hex : (exists w, w <> [] /\ forallb is_letter_or_apostrophe w = true
                          /\ ("a" :: "b" :: "010" :: nil = w
                              \/ "a" :: "b" :: "010" :: nil = w ++ ["010"]))%char).
  { exists (lit "ab"). split; [discriminate | split; [reflexivity | right; reflexivity]]. }
  assert (Hin : In (lit "can't") (tokenize (lit "I can't go")))
    by (right; left; reflexivity).
  split; [exact Hex | split; [| split; [exact Hin|]]].
  - exact (proj2 (proj1 (is_word_accepts ("a" :: "b" :: "010" :: nil)%char)) Hex).
  - exact (proj2 (is_word_accepts (lit "can't")) (lit "I can't go") Hin).
Defined.

(** ** The singular heuristic *)

Lemma endswith_intro (pre suffix : str) : endswith (pre ++ suffix) suffix = true.
Proof.
  unfold endswith. rewrite length_app.
  replace (length pre + length suffix - length suffix) with (length pre) by lia.
  apply andb_true_intro. split; [apply Nat.leb_le; lia|].
  rewrite skipn_app, skipn_all, Nat.sub_diag. apply str_eqb_refl.
Qed.

Lemma endswith_iff (s suffix : str) :
  endswith s suffix = true <-> exists pre, s = pre ++ suffix.
Proof.
  split.
  - intros H. eexists. apply (endswith_app s suffix H).
  - intros [pre ->]. apply endswith_intro.
Qed.

Lemma endswith_ies_s (s : str) :
  endswith s (lit "ies") = true -> endswith s (lit "s") = true.
Proof.
  intros H. apply endswith_iff in H. destruct H as [pre ->].
  change (lit "ies") with (lit "ie" ++ lit "s"). rewrite app_assoc.
  apply endswith_intro.
Qed.

Lemma endswith_s_ss (k : str) :
  endswith k (lit "s") = true -> endswith (k ++ lit "s") (lit "ss") = true.
Proof.
  intros H. apply endswith_iff in H. destruct H as [pre ->].
  rewrite <- app_assoc. apply endswith_intro.
Qed.

Lemma endswith_y_not_s (stem : str) : endswith (stem ++ lit "y") (lit "s") = false.
Proof.
  destruct (endswith (stem ++ lit "y") (lit "s")) eqn:E; [|reflexivity].
  apply endswith_iff in E. destruct E as [pre E].
  apply app_inj_tail in E. destruct E as [_ E]. discriminate E.
Qed.

Lemma endswith_ss_not_ies (s : str) :
  endswith s (lit "ss") = true -> endswith s (lit "ies") = false.
Proof.
  intros H. destruct (endswith s (lit "ies")) eqn:E; [|reflexivity].
  apply endswith_iff in H. apply endswith_iff in E.
  destruct H as [p ->]. destruct E as [q E].
  change (lit "ss") with (lit "s" ++ lit "s") in E.
  change (lit "ies") with (lit "ie" ++ lit "s") in E.
  rewrite !app_assoc in E. apply app_inj_tail in E. destruct E as [E _].
  change (lit "ie") with (lit "i" ++ lit "e") in E. rewrite app_assoc in E.
  apply app_inj_tail in E. destruct E as [_ E]. discriminate E.
Qed.

Lemma singular_fixed (r : str) :
  endswith r (lit "s") = false -> english_plural_to_singular r = r.
Proof.
  intros H. unfold english_plural_to_singular.
  destruct (endswith r (lit "ies")) eqn:E.
  - apply endswith_ies_s in E. congruence.
  - rewrite H. reflexivity.
Qed.

(** X6. [english_plural_to_singular] is idempotent: the singular form of
    a word is its own singular form. *)
Theorem english_plural_to_singular_idempotent (word : str) :
  english_plural_to_singular (english_plural_to_singular word)
  = english_plural_to_singular word.
Proof.
  remember (english_plural_to_singular word) as r eqn:Er.
  unfold english_plural_to_singular in Er.
  destruct (endswith word (lit "ies") && (3 <? length word)) eqn:E1.
  - subst r. apply singular_fixed, endswith_y_not_s.
  - destruct (endswith word (lit "s") && (3 <? length word)
              && negb (endswith word (lit "ss"))) eqn:E2.
    + apply andb_prop in E2. destruct E2 as [E2 Hss].
      apply andb_prop in E2. destruct E2 as [Hs _].
      apply negb_true_iff in Hss. subst r. apply singular_fixed.
      destruct (endswith (firstn (length word - 1) word) (lit "s")) eqn:E;
        [|reflexivity].
      apply endswith_s_ss in E.
      change (length word - 1) with (length word - length (lit "s")) in E.
      rewrite <- (endswith_app word (lit "s") Hs) in E. congruence.
    + subst r. unfold english_plural_to_singular. rewrite E1, E2. reflexivity.
Qed.

(** X7. [english_plural_to_singular] removes at most two characters and
    adds none; it leaves a word of at most three characters and a word
    that ends in [ss] as they are, and it never returns the empty string
    for a word that is not empty. *)
Theorem english_plural_to_singular_bounds (word : str) :
  length (english_plural_to_singular word) <= length word
  /\ length word - 2 <= length (english_plural_to_singular word)
  /\ (length word <= 3 -> english_plural_to_singular word = word)
  /\ (endswith word (lit "ss") = true -> english_plural_to_singular word = word)
  /\ (word <> [] -> english_plural_to_singular word <> []).
Proof.
  unfold english_plural_to_singular.
  destruct (endswith word (lit "ies") && (3 <? length word)) eqn:E1.
  - apply andb_prop in E1. destruct E1 as [Hies Hlen]. apply Nat.ltb_lt in Hlen.
    rewrite length_app, length_firstn. simpl length.
    repeat split; try lia.
    + intros Hss. apply endswith_ss_not_ies in Hss. congruence.
    + intros _ E. apply app_eq_nil in E. destruct E as [_ E]. discriminate E.
  - destruct (endswith word (lit "s") && (3 <? length word)
              && negb (endswith word (lit "ss"))) eqn:E2.
    + apply andb_prop in E2. destruct E2 as [E2 Hss].
      apply andb_prop in E2. destruct E2 as [_ Hlen]. apply Nat.ltb_lt in Hlen.
      apply negb_true_iff in Hss. rewrite length_firstn.
      repeat split; try lia.
      * congruence.
      * intros _ E. apply (f_equal (@length ascii)) in E.
        rewrite length_firstn in E. simpl in E. lia.
    + repeat split; try lia; auto.
Qed.

Lemma english_plural_to_singular_bounds_witness :
  (length (lit "bus") <= 3 /\ english_plural_to_singular (lit "bus") = lit "bus")
  /\ (endswith (lit "class") (lit "ss") = true
      /\ english_plural_to_singular (lit "class") = lit "class")
  /\ (lit "cities" <> [] /\ english_plural_to_singular (lit "cities") <> []).
Proof.
  pose proof (english_plural_to_singular_bounds (lit "bus")) as [_ [_ [H1 _]]].
  pose proof (english_plural_to_singular_bounds (lit "class")) as [_ [_ [_ [H2 _]]]].
  pose proof (english_plural_to_singular_bounds (lit "cities")) as [_ [_ [_ [_ H3]]]].
  assert (Ha : length (lit "bus") <= 3) by (simpl; lia).
  assert (Hc : lit "cities" <> []) by discriminate.
  split; [split; [exact Ha | exact (H1 Ha)]|].
  split; [split; [reflexivity | exact (H2 eq_refl)]|].
  split; [exact Hc | exact (H3 Hc)].
Defined.

(** ** The substitution loops on lower-case text *)

Lemma lower_char_fixed (c : ascii) : isupper c = false -> lower_char c = c.
Proof. unfold lower_char. intros ->. reflexivity. Qed.










Local Open Scope string_scope.


Local Close Scope string_scope.




(** ** The order of the multiword keys *)

From Stdlib Require Import Permutation Sorted.

Lemma insert_by_len_permutation (x : str) (l : list str) :
  Permutation (insert_by_len x l) (x :: l).
Proof.
  induction l as [|y l IH]; [apply Permutation_refl|].
  simpl. destruct (length x <? length y).
  - apply Permutation_trans with (y :: x :: l);
      [apply perm_skip, IH | apply perm_swap].
  - apply Permutation_refl.
Qed.

Lemma sorted_len_desc_permutation (l : list str) :
  Permutation (sorted_len_desc l) l.
Proof.
  induction l as [|x l IH]; [apply Permutation_refl|].
  simpl. apply Permutation_trans with (x :: sorted_len_desc l);
    [apply insert_by_len_permutation | apply perm_skip, IH].
Qed.

Lemma insert_by_len_hd (x y : str) (l : list str) :
  length x <= length y -> HdRel longer_or_equal y l ->
  HdRel longer_or_equal y (insert_by_len x l).
Proof.
  intros Hxy Hl. destruct l as [|z l]; simpl.
  - constructor. exact Hxy.
  - destruct (length x <? length z); constructor;
      [inversion Hl; assumption | exact Hxy].
Qed.

Lemma insert_by_len_sorted (x : str) (l : list str) :
  Sorted longer_or_equal l -> Sorted longer_or_equal (insert_by_len x l).
Proof.
  induction 1 as [|y l Hl IH Hhd]; simpl; [repeat constructor|].
  destruct (length x <? length y) eqn:E.
  - apply Nat.ltb_lt in E. constructor; [exact IH|].
    apply insert_by_len_hd; [lia | exact Hhd].
  - apply Nat.ltb_ge in E. constructor; [constructor; assumption|].
    constructor. exact E.
Qed.

Lemma sorted_len_desc_sorted (l : list str) :
  Sorted longer_or_equal (sorted_len_desc l).
Proof.
  induction l as [|x l IH]; [constructor|].
  simpl. apply insert_by_len_sorted, IH.
Qed.

(** X10. The keys that the multiword pass goes through are a
    rearrangement of the keys of the dictionary that hold a space, and a
    key is never tried before a longer one. *)
Theorem multiword_keys_longest_first (word_dict : dict) :
  Permutation (multiword_keys word_dict)
              (filter (contains (lit " ")) (dict_keys word_dict))
  /\ StronglySorted longer_or_equal (multiword_keys word_dict).
Proof.
  split; [apply sorted_len_desc_permutation|].
  apply Sorted_StronglySorted; [|apply sorted_len_desc_sorted].
  intros a b c Hab Hbc. unfold longer_or_equal in *. lia.
Qed.

(** ** Input that does not matter, and empty output *)

Lemma isspace_lower_char (c : ascii) : isspace (lower_char c) = isspace c.
Proof. destruct c as [[] [] [] [] [] [] [] []]; reflexivity. Qed.

Lemma lower_idempotent (s : str) : lower (lower s) = lower s.
Proof.
  unfold lower. rewrite map_map. apply map_ext. intros c.
  apply lower_char_fixed, isupper_lower_char.
Qed.

Lemma is_empty_strip (s : str) : is_empty (strip s) = forallb isspace s.
Proof.
  destruct (forallb isspace s) eqn:E.
  - rewrite (strip_whitespace_only s E). reflexivity.
  - destruct (strip s) eqn:Es; [|reflexivity].
    apply strip_nil in Es. congruence.
Qed.

Lemma forallb_isspace_lower (s : str) :
  forallb isspace (lower s) = forallb isspace s.
Proof.
  unfold lower. induction s as [|c s IH]; [reflexivity|].
  simpl. rewrite isspace_lower_char, IH. reflexivity.
Qed.

Lemma convert_lower (text : str) (s : Z) (keep polite post slang : bool)
      (d : dict) (ks : list str) :
  convert_to_tenglish (lower text) s keep polite post slang d ks
  = convert_to_tenglish text s keep polite post slang d ks.
Proof.
  unfold convert_to_tenglish, apply_phrase_rules.
  rewrite !is_empty_strip, forallb_isspace_lower, lower_idempotent. reflexivity.
Qed.

(** X11. The case of the input does not matter: two texts with the same
    lower-case form give the same output, for every configuration,
    dictionary and keep-English set. *)
Theorem convert_ignores_case
        (text1 text2 : str) (telugu_strength : Z)
        (keep_english_nouns polite_mode add_postpositions add_telangana_slang : bool)
        (word_dict : dict) (keep_english_set : list str) :
  lower text1 = lower text2 ->
  convert_to_tenglish text1 telugu_strength keep_english_nouns polite_mode
    add_postpositions add_telangana_slang word_dict keep_english_set
  = convert_to_tenglish text2 telugu_strength keep_english_nouns polite_mode
      add_postpositions add_telangana_slang word_dict keep_english_set.
Proof.
  intros H. rewrite <- (convert_lower text1), <- (convert_lower text2), H.
  reflexivity.
Qed.

Lemma convert_ignores_case_witness :
  lower (lit "I WILL Go Home") = lower (lit "i will go home")
  /\ convert_to_tenglish (lit "I WILL Go Home") 65 true false true false
       W KEEP_ENGLISH_DEFAULT
     = convert_to_tenglish (lit "i will go home") 65 true false true false
         W KEEP_ENGLISH_DEFAULT.
Proof.
  split; [reflexivity|].
  apply (convert_ignores_case (lit "I WILL Go Home") (lit "i will go home")).
  reflexivity.
Defined.

(** *** A text that is not blank gives an output that is not empty *)



























(** ** Punctuation in the output *)

Lemma is_punct_lower_char (c : ascii) : is_punct (lower_char c) = is_punct c.
Proof. destruct c as [[] [] [] [] [] [] [] []]; reflexivity. Qed.

Lemma upper_char_no_punct (c : ascii) :
  is_punct c = false -> forallb (fun x => negb (is_punct x)) (upper_char c) = true.
Proof. destruct c as [[] [] [] [] [] [] [] []]; vm_compute; congruence. Qed.

Lemma no_punct_not_question (c : ascii) :
  is_punct c = false -> Ascii.eqb c "?" = false.
Proof. destruct c as [[] [] [] [] [] [] [] []]; vm_compute; congruence. Qed.

Lemma no_punct_bool (s : str) :
  forallb (fun c => negb (is_punct c)) s = true ->
  Forall (fun c => is_punct c = false) s.
Proof.
  intros H. apply Forall_bool in H. eapply Forall_impl; [|exact H].
  intros c. apply negb_true_iff.
Qed.

Lemma no_punct_lower (s : str) :
  Forall (fun c => is_punct c = false) s ->
  Forall (fun c => is_punct c = false) (lower s).
Proof.
  intros H. apply Forall_forall. intros x Hx. apply in_map_iff in Hx.
  destruct Hx as [c [<- Hc]]. rewrite is_punct_lower_char.
  rewrite Forall_forall in H. apply H, Hc.
Qed.

Lemma no_punct_to_title_like (original converted : str) :
  Forall (fun c => is_punct c = false) converted ->
  Forall (fun c => is_punct c = false) (to_title_like original converted).
Proof.
  intros H. destruct original as [|o original]; [exact H|].
  destruct H as [|c rest Hc Hrest]; [constructor|].
  simpl. destruct (isupper o); [|constructor; assumption].
  apply Forall_app. split; [|exact Hrest].
  apply no_punct_bool, upper_char_no_punct, Hc.
Qed.

Lemma no_punct_translate_token (s : Z) (keep : bool) (d : dict) (ks : list str)
      (tok : str) :
  Forall (fun kv => Forall (fun c => is_punct c = false) (snd kv)) d ->
  Forall (fun c => is_punct c = false) tok ->
  Forall (fun c => is_punct c = false) (translate_token s keep d ks tok).
Proof.
  intros Hd Htok. unfold translate_token.
  destruct (negb (is_word tok)); [exact Htok|].
  destruct (keep && _); [apply no_punct_lower, Htok|].
  destruct (dict_mem d (lower tok) || _); [|apply no_punct_lower, Htok].
  destruct (if (35 <=? s)%Z then true else _); [|apply no_punct_lower, Htok].
  apply no_punct_to_title_like.
  apply Forall_dict_get; [exact Hd|].
  apply Forall_dict_get; [exact Hd | apply no_punct_lower, Htok].
Qed.

Lemma builder_values_no_punct :
  Forall (fun kv => Forall (fun c => is_punct c = false) (snd kv))
         build_tenglish_dictionary.
Proof.
  rewrite <- W_eq.
  assert (H : forallb (fun kv => forallb (fun c => negb (is_punct c)) (snd kv)) W
              = true) by (vm_compute; reflexivity).
  apply Forall_bool in H. eapply Forall_impl; [|exact H].
  intros kv. apply no_punct_bool.
Qed.

Lemma no_punct_result_before_slang (text : str) (s : Z) (keep post : bool)
      (ks : list str) :
  Forall (fun c => is_punct c = false)
         (result_before_slang text s keep post build_tenglish_dictionary ks).
Proof.
  unfold result_before_slang.
  assert (H0 : Forall (fun c => is_punct c = false)
                 (multiword_pass build_tenglish_dictionary
                    (join (lit " ")
                       (map (translate_token s keep build_tenglish_dictionary ks)
                          (tokenize (apply_phrase_rules text)))))).
  { unfold multiword_pass.
    apply (Forall_fold_sub_word _ true
             (fun k => dict_get build_tenglish_dictionary k [])).
    - intros k. apply Forall_dict_get; [apply builder_values_no_punct | constructor].
    - apply Forall_join; [repeat constructor|].
      apply Forall_forall. intros x Hx. apply in_map_iff in Hx.
      destruct Hx as [tok [<- Htok]].
      apply no_punct_translate_token; [apply builder_values_no_punct|].
      revert tok Htok. apply Forall_forall. apply tokenize_no_punctuation. }
  destruct post; [|exact H0].
  unfold postposition_pass.
  do 3 (apply Forall_sub_word; [repeat constructor|]). exact H0.
Qed.

Lemma contains_question_false (r : str) :
  Forall (fun c => is_punct c = false) r -> contains (lit "?") r = false.
Proof.
  change (lit "?") with ["?"%char].
  induction 1 as [|c r Hc Hr IH]; [reflexivity|].
  cbn [contains prefix_eqb].
  rewrite Ascii.eqb_sym, (no_punct_not_question c Hc). exact IH.
Qed.

Lemma clean_punct_spacing_no_punct (r : str) :
  Forall (fun c => is_punct c = false) r -> clean_punct_spacing r = r.
Proof.
  induction 1 as [|c r Hc Hr IH]; [reflexivity|].
  simpl. rewrite IH.
  assert (E : starts_with_punct (dropwhile isspace r) = false).
  { destruct (dropwhile isspace r) as [|x t] eqn:Ed; [reflexivity|].
    simpl. assert (Hx : Forall (fun c => is_punct c = false) (x :: t))
      by (rewrite <- Ed; apply Forall_dropwhile, Hr).
    inversion Hx. assumption. }
  rewrite E, andb_false_r. reflexivity.
Qed.

(** X13. With the dictionary of the builder no punctuation mark among
    [. ! ? , ; :] ever reaches the result: the string that enters the
    slang pass holds none, so the slang pass never takes its question
    branch, the removal of spaces before punctuation removes nothing, and
    the output holds no punctuation mark. *)
Theorem convert_output_has_no_punctuation
        (text : str) (telugu_strength : Z)
        (keep_english_nouns polite_mode add_postpositions add_telangana_slang : bool)
        (keep_english_set : list str) :
  let result :=
    result_before_slang text telugu_strength keep_english_nouns add_postpositions
      build_tenglish_dictionary keep_english_set in
  let styled :=
    let r := if add_telangana_slang then slang_pass result else result in
    if polite_mode then polite_pass r else r in
  let output :=
    convert_to_tenglish text telugu_strength keep_english_nouns polite_mode
      add_postpositions add_telangana_slang build_tenglish_dictionary
      keep_english_set in
  Forall (fun c => is_punct c = false) result
  /\ slang_pass result
     = (if (length (split result) <=? 7)
           && negb (search_word [lit "ra"; lit "rey"] result)
        then result ++ lit " ra" else result)
  /\ clean_punct_spacing styled = styled
  /\ output = (if is_empty (strip text) then [] else normalize_spaces styled)
  /\ Forall (fun c => is_punct c = false) output.
Proof.
  intros result styled output.
  assert (Hr : Forall (fun c => is_punct c = false) result)
    by apply no_punct_result_before_slang.
  assert (Hslang : slang_pass result
                   = (if (length (split result) <=? 7)
                         && negb (search_word [lit "ra"; lit "rey"] result)
                      then result ++ lit " ra" else result)).
  { unfold slang_pass. rewrite (contains_question_false result Hr). reflexivity. }
  assert (Hs : Forall (fun c => is_punct c = false) styled).
  { unfold styled.
    assert (H1 : Forall (fun c => is_punct c = false)
                   (if add_telangana_slang then slang_pass result else result)).
    { destruct add_telangana_slang; [|exact Hr]. rewrite Hslang.
      destruct (_ && _); [|exact Hr].
      apply Forall_app. split; [exact Hr | repeat constructor]. }
    destruct polite_mode; [|exact H1].
    unfold polite_pass. destruct (search_letter_at_end _); [|exact H1].
    apply Forall_app. split; [apply Forall_strip, H1 | repeat constructor]. }
  assert (Hc : clean_punct_spacing styled = styled)
    by (apply clean_punct_spacing_no_punct, Hs).
  assert (Ho : output = (if is_empty (strip text) then []
                         else normalize_spaces styled)).
  { unfold output, convert_to_tenglish. destruct (is_empty (strip text)) eqn:E;
      [reflexivity|].
    fold (result_before_slang text telugu_strength keep_english_nouns
            add_postpositions build_tenglish_dictionary keep_english_set).
    fold result. fold styled. rewrite Hc. reflexivity. }
  repeat split; try assumption.
  rewrite Ho. destruct (is_empty (strip text)); [constructor|].
  apply Forall_normalize_spaces; [reflexivity | exact Hs].
Qed.

(** *** No space before a punctuation mark *)

Lemma clean_punct_spacing_head (s : str) :
  starts_with_punct (dropwhile isspace s) = false ->
  starts_with_punct (clean_punct_spacing s) = false.
Proof.
  destruct s as [|d s]; [reflexivity|].
  simpl. destruct (isspace d) eqn:Ed.
  - intros H. rewrite H. simpl. apply space_not_punct, Ed.
  - simpl. auto.
Qed.

Lemma clean_punct_spacing_result (s : str) :
  no_space_before_punct (clean_punct_spacing s) = true.
Proof.
  induction s as [|c s IH]; [reflexivity|].
  simpl. destruct (isspace c && starts_with_punct (dropwhile isspace s)) eqn:E;
    [exact IH|].
  cbn [no_space_before_punct]. rewrite IH, andb_true_r.
  destruct (isspace c); [|reflexivity].
  simpl in E. rewrite (clean_punct_spacing_head s E). reflexivity.
Qed.

Lemma no_space_before_punct_run (s : str) :
  no_space_before_punct s = true -> starts_with_space s = true ->
  starts_with_punct (dropwhile isspace s) = false.
Proof.
  induction s as [|d s IH]; [reflexivity|].
  cbn [no_space_before_punct]. intros H Hd. simpl in Hd.
  apply andb_prop in H. destruct H as [H1 H2].
  simpl. rewrite Hd. rewrite Hd in H1. simpl in H1. apply negb_true_iff in H1.
  destruct (starts_with_space s) eqn:Es; [apply IH; auto|].
  rewrite (dropwhile_fixed s Es). exact H1.
Qed.

Lemma clean_punct_spacing_fixed (s : str) :
  no_space_before_punct s = true -> clean_punct_spacing s = s.
Proof.
  induction s as [|c s IH]; [reflexivity|].
  cbn [no_space_before_punct]. intros H. apply andb_prop in H.
  destruct H as [H1 H2]. simpl. rewrite (IH H2).
  destruct (isspace c); [|reflexivity]. simpl in *.
  apply negb_true_iff in H1.
  destruct (starts_with_space s) eqn:Es.
  - rewrite (no_space_before_punct_run s H2 Es). reflexivity.
  - rewrite (dropwhile_fixed s Es), H1. reflexivity.
Qed.

Lemma no_space_before_punct_app (a b : str) :
  no_space_before_punct (a ++ b) = true ->
  no_space_before_punct a = true /\ no_space_before_punct b = true.
Proof.
  induction a as [|c a IH]; [auto|].
  cbn [app no_space_before_punct]. intros H. apply andb_prop in H.
  destruct H as [Hc H]. destruct (IH H) as [Ha Hb]. split; [|exact Hb].
  rewrite Ha, andb_true_r.
  destruct a; [rewrite andb_false_r; reflexivity | exact Hc].
Qed.

Lemma collapse_spaces_no_space_before_punct (s : str) :
  no_space_before_punct s = true ->
  no_space_before_punct (collapse_spaces s) = true.
Proof.
  induction s as [|c s IH]; [reflexivity|].
  cbn [no_space_before_punct]. intros H. apply andb_prop in H.
  destruct H as [H1 H2]. specialize (IH H2).
  simpl. destruct (isspace c) eqn:Ec.
  - destruct s as [|d s']; [reflexivity|].
    destruct (isspace d) eqn:Ed; [exact IH|].
    cbn [no_space_before_punct]. rewrite IH, andb_true_r.
    simpl in H1. simpl. rewrite Ed. simpl. exact H1.
  - cbn [no_space_before_punct]. rewrite Ec, IH. reflexivity.
Qed.

(** X14. [clean_punct_spacing], the removal of whitespace before
    punctuation, leaves no whitespace character immediately before a
    punctuation mark and is idempotent; for every dictionary the output
    of [convert_to_tenglish] has no whitespace before a punctuation
    mark. *)
Theorem no_space_before_punctuation
        (s text : str) (telugu_strength : Z)
        (keep_english_nouns polite_mode add_postpositions add_telangana_slang : bool)
        (word_dict : dict) (keep_english_set : list str) :
  no_space_before_punct (clean_punct_spacing s) = true
  /\ clean_punct_spacing (clean_punct_spacing s) = clean_punct_spacing s
  /\ no_space_before_punct
       (convert_to_tenglish text telugu_strength keep_english_nouns polite_mode
          add_postpositions add_telangana_slang word_dict keep_english_set) = true.
Proof.
  split; [apply clean_punct_spacing_result|].
  split; [apply clean_punct_spacing_fixed, clean_punct_spacing_result|].
  unfold convert_to_tenglish. destruct (is_empty (strip text)); [reflexivity|].
  unfold normalize_spaces.
  match goal with
  | |- no_space_before_punct (strip (collapse_spaces (clean_punct_spacing ?r))) = true =>
      pose proof (collapse_spaces_no_space_before_punct _
                    (clean_punct_spacing_result r)) as H;
      destruct (strip_infix (collapse_spaces (clean_punct_spacing r)))
        as [pre [post E]]
  end.
  rewrite E in H. apply no_space_before_punct_app in H. destruct H as [_ H].
  apply no_space_before_punct_app in H. apply H.
Qed.

(** ** The keep-English set *)

Lemma translate_token_keep_ext (s : Z) (keep : bool) (d : dict)
      (ks1 ks2 : list str) (tok : str) :
  keep = false
  \/ (set_mem (lower tok) ks1 = set_mem (lower tok) ks2
      /\ set_mem (english_plural_to_singular (lower tok)) ks1
         = set_mem (english_plural_to_singular (lower tok)) ks2) ->
  translate_token s keep d ks1 tok = translate_token s keep d ks2 tok.
Proof.
  intros H. unfold translate_token.
  destruct H as [-> | [H1 H2]]; [reflexivity|].
  rewrite H1, H2. reflexivity.
Qed.

(** X15. The keep-English set matters only through membership: two sets
    with the same members (in any order, with or without repetitions)
    give the same output, and with [keep_english_nouns] off the set does
    not matter at all. *)
Theorem convert_keep_set_by_membership
        (text : str) (telugu_strength : Z)
        (keep_english_nouns polite_mode add_postpositions add_telangana_slang : bool)
        (word_dict : dict) (keep_english_set1 keep_english_set2 : list str) :
  keep_english_nouns = false
  \/ (forall x, set_mem x keep_english_set1 = set_mem x keep_english_set2) ->
  convert_to_tenglish text telugu_strength keep_english_nouns polite_mode
    add_postpositions add_telangana_slang word_dict keep_english_set1
  = convert_to_tenglish text telugu_strength keep_english_nouns polite_mode
      add_postpositions add_telangana_slang word_dict keep_english_set2.
Proof.
  intros H. unfold convert_to_tenglish.
  rewrite (map_ext
             (translate_token telugu_strength keep_english_nouns word_dict
                keep_english_set1)
             (translate_token telugu_strength keep_english_nouns word_dict
                keep_english_set2)); [reflexivity|].
  intros tok. apply translate_token_keep_ext.
  destruct H as [H | H]; [left; exact H | right; split; apply H].
Qed.

Lemma convert_keep_set_by_membership_witness :
  (forall x, set_mem x [lit "office"; lit "gym"]
             = set_mem x [lit "gym"; lit "office"; lit "gym"])
  /\ convert_to_tenglish (lit "go to office") 65 true false true false W
       [lit "office"; lit "gym"]
     = convert_to_tenglish (lit "go to office") 65 true false true false W
         [lit "gym"; lit "office"; lit "gym"].
Proof.
  assert (H : forall x, set_mem x [lit "office"; lit "gym"]
                        = set_mem x [lit "gym"; lit "office"; lit "gym"]).
  { intros x. unfold set_mem. cbn [existsb].
    destruct (str_eqb x (lit "office")), (str_eqb x (lit "gym")); reflexivity. }
  split; [exact H|].
  apply (convert_keep_set_by_membership (lit "go to office") 65 true false true
           false W [lit "office"; lit "gym"] [lit "gym"; lit "office"; lit "gym"]).
  right. exact H.
Defined.

Lemma set_mem_add (x w : str) (s : list str) :
  set_mem x (set_add w s) = str_eqb x w || set_mem x s.
Proof.
  unfold set_add. destruct (set_mem w s) eqn:E; [|reflexivity].
  destruct (str_eqb x w) eqn:Ex; [|reflexivity].
  apply str_eqb_eq in Ex. subst x. exact E.
Qed.

Lemma split_on_nonempty (sep : ascii) (s : str) : split_on sep s <> [].
Proof.
  destruct s as [|c s]; [discriminate|].
  simpl. destruct (Ascii.eqb c sep); [discriminate|].
  destruct (split_on sep s); discriminate.
Qed.

Lemma split_on_single (sep : ascii) (p : str) :
  Forall (fun c => Ascii.eqb c sep = false) p -> split_on sep p = [p].
Proof.
  induction 1 as [|c p Hc Hp IH]; [reflexivity|].
  simpl. rewrite Hc, IH. reflexivity.
Qed.

Lemma split_on_app (sep : ascii) (p rest : str) :
  Forall (fun c => Ascii.eqb c sep = false) p ->
  split_on sep (p ++ sep :: rest) = p :: split_on sep rest.
Proof.
  induction 1 as [|c p Hc Hp IH].
  - simpl. rewrite Ascii.eqb_refl. reflexivity.
  - simpl. rewrite Hc, IH. reflexivity.
Qed.

Lemma split_on_join (sep : ascii) (pieces : list str) :
  pieces <> [] ->
  Forall (Forall (fun c => Ascii.eqb c sep = false)) pieces ->
  split_on sep (join [sep] pieces) = pieces.
Proof.
  intros Hne H. revert Hne.
  induction H as [|p l Hp Hl IH]; intros Hne; [destruct (Hne eq_refl)|].
  destruct l as [|q l'].
  - simpl. apply split_on_single, Hp.
  - change (join [sep] (p :: q :: l')) with (p ++ sep :: join [sep] (q :: l')).
    rewrite (split_on_app sep p _ Hp), (IH ltac:(discriminate)). reflexivity.
Qed.

Lemma keep_set_fold_members (x : str) (pieces : list str) :
  forall acc,
    set_mem x
      (fold_left
         (fun keep_english_set w =>
            let w := lower (strip w) in
            if is_empty w then keep_english_set else set_add w keep_english_set)
         pieces acc) = true
    <-> set_mem x acc = true
        \/ (x <> [] /\ exists p, In p pieces /\ x = lower (strip p)).
Proof.
  induction pieces as [|q pieces IH]; intros acc.
  - simpl. split; [auto | intros [H | [_ [p [[] _]]]]; exact H].
  - cbn [fold_left]. rewrite IH. cbv zeta.
    destruct (lower (strip q)) as [|c w] eqn:E; cbn [is_empty].
    + split.
      * intros [H | [Hx [p [Hp Hxp]]]]; [left; exact H|].
        right. split; [exact Hx|]. exists p. split; [right; exact Hp | exact Hxp].
      * intros [H | [Hx [p [[Hp | Hp] Hxp]]]]; [left; exact H | |].
        -- subst p. rewrite E in Hxp. congruence.
        -- right. split; [exact Hx|]. exists p. split; assumption.
    + rewrite set_mem_add. split.
      * intros [H | [Hx [p [Hp Hxp]]]].
        -- apply orb_true_iff in H. destruct H as [H | H]; [|left; exact H].
           apply str_eqb_eq in H. right. split; [rewrite H; discriminate|].
           exists q. split; [left; reflexivity | rewrite E; exact H].
        -- right. split; [exact Hx|]. exists p. split; [right; exact Hp | exact Hxp].
      * intros [H | [Hx [p [[Hp | Hp] Hxp]]]].
        -- left. rewrite H. apply orb_true_r.
        -- subst p. left. rewrite Hxp, E, str_eqb_refl. reflexivity.
        -- right. split; [exact Hx|]. exists p. split; assumption.
Qed.

(** X16. The keep-English set that the page builds from its
    comma-separated field: for entries without comma written between
    commas, a string is in the set exactly when it is in the default set
    or is the stripped, lower-cased form of an entry and is not empty. *)
Theorem page_keep_english_set_members (pieces : list str) (x : str) :
  pieces <> [] ->
  Forall (Forall (fun c => Ascii.eqb c "," = false)) pieces ->
  (set_mem x (page_keep_english_set (join (lit ",") pieces)) = true
   <-> set_mem x KEEP_ENGLISH_DEFAULT = true
       \/ (x <> [] /\ exists p, In p pieces /\ x = lower (strip p))).
Proof.
  intros Hne Hp. unfold page_keep_english_set.
  change (lit ",") with [","%char].
  rewrite (split_on_join ","%char pieces Hne Hp).
  apply keep_set_fold_members.
Qed.

Lemma page_keep_english_set_members_witness :
  let pieces := [lit "ElderMate"; lit " Raspberry Pi"; lit " GATE"; lit ""; lit " IIT "] in
  pieces <> []
  /\ Forall (Forall (fun c => Ascii.eqb c "," = false)) pieces
  /\ join (lit ",") pieces = lit "ElderMate, Raspberry Pi, GATE,, IIT "
  /\ set_mem (lit "raspberry pi")
       (page_keep_english_set (lit "ElderMate, Raspberry Pi, GATE,, IIT ")) = true.
Proof.
  intros pieces.
  assert (Hne : pieces <> []) by discriminate.
  assert (Hp : Forall (Forall (fun c => Ascii.eqb c "," = false)) pieces)
    by (repeat constructor).
  split; [exact Hne | split; [exact Hp | split; [reflexivity|]]].
  apply (proj2 (page_keep_english_set_members pieces (lit "raspberry pi") Hne Hp)).
  right. split; [discriminate|].
  exists (lit " Raspberry Pi"). split; [right; left; reflexivity | reflexivity].
Defined.

Lemma no_space_firstn (n : nat) (s : str) :
  Forall (fun c => isspace c = false) s ->
  Forall (fun c => isspace c = false) (firstn n s).
Proof.
  intros H. revert n. induction H as [|c s Hc Hs IH]; intros [|n]; simpl;
    constructor; auto.
Qed.

Lemma no_space_singular (word : str) :
  Forall (fun c => isspace c = false) word ->
  Forall (fun c => isspace c = false) (english_plural_to_singular word).
Proof.
  intros H. unfold english_plural_to_singular.
  destruct (_ && _).
  - apply Forall_app. split; [apply no_space_firstn, H | repeat constructor].
  - destruct (_ && _ && _); [apply no_space_firstn, H | exact H].
Qed.

Lemma no_space_differs (q w : str) :
  Forall (fun c => isspace c = false) q -> existsb isspace w = true ->
  str_eqb q w = false.
Proof.
  intros Hq Hw. apply str_eqb_neq. intros ->.
  apply existsb_exists in Hw. destruct Hw as [c [Hc Hs]].
  rewrite Forall_forall in Hq. rewrite (Hq c Hc) in Hs. discriminate.
Qed.

(** X17. An entry of the keep-English set that holds a whitespace
    character, such as ["raspberry pi"] of the page's default field, is
    never used: adding it to the set changes no output, because a token
    holds no whitespace. *)
Theorem keep_entry_with_space_is_inert
        (text : str) (telugu_strength : Z)
        (keep_english_nouns polite_mode add_postpositions add_telangana_slang : bool)
        (word_dict : dict) (keep_english_set : list str) (w : str) :
  existsb isspace w = true ->
  convert_to_tenglish text telugu_strength keep_english_nouns polite_mode
    add_postpositions add_telangana_slang word_dict (set_add w keep_english_set)
  = convert_to_tenglish text telugu_strength keep_english_nouns polite_mode
      add_postpositions add_telangana_slang word_dict keep_english_set.
Proof.
  intros Hw. unfold convert_to_tenglish.
  rewrite (map_ext_in
             (translate_token telugu_strength keep_english_nouns word_dict
                (set_add w keep_english_set))
             (translate_token telugu_strength keep_english_nouns word_dict
                keep_english_set)); [reflexivity|].
  intros tok Htok. apply translate_token_keep_ext. right.
  pose proof (tokenize_token_like (apply_phrase_rules text)) as Ht.
  rewrite forallb_forall in Ht.
  destruct (token_like_spec tok (Ht tok Htok)) as [_ [Hns _]].
  assert (Hl : Forall (fun c => isspace c = false) (lower tok)).
  { apply Forall_forall. intros x Hx. apply in_map_iff in Hx.
    destruct Hx as [c [<- Hc]]. rewrite isspace_lower_char.
    rewrite Forall_forall in Hns. apply Hns, Hc. }
  rewrite !set_mem_add.
  rewrite (no_space_differs _ w Hl Hw).
  rewrite (no_space_differs _ w (no_space_singular _ Hl) Hw).
  split; reflexivity.
Qed.

Lemma keep_entry_with_space_is_inert_witness :
  existsb isspace (lit "raspberry pi") = true
  /\ convert_to_tenglish (lit "my raspberry pi is good") 65 true false true false W
       (set_add (lit "raspberry pi") KEEP_ENGLISH_DEFAULT)
     = convert_to_tenglish (lit "my raspberry pi is good") 65 true false true false W
         KEEP_ENGLISH_DEFAULT.
Proof.
  split; [reflexivity|].
  apply (keep_entry_with_space_is_inert (lit "my raspberry pi is good") 65 true
           false true false W KEEP_ENGLISH_DEFAULT (lit "raspberry pi")).
  reflexivity.
Defined.

(** ** The style passes applied twice *)

Lemma postposition_pass_segments (l : list str) :
  segmented false l ->
  postposition_pass (concat l) = concat (map style_word l)
  /\ segmented false (map style_word l).
Proof.
  intros Hseg. unfold postposition_pass.
  assert (H1 := sub_word_segments "t" (lit "o") "k" (lit "i") eq_refl
                  ltac:(word_chars) eq_refl l Hseg).
  assert (S1 := segmented_replace "t" (lit "o") "k" (lit "i") eq_refl
                  eq_refl ltac:(word_chars) l false Hseg).
  change ("t"%char :: lit "o") with (lit "to") in *.
  change ("k"%char :: lit "i") with (lit "ki") in *.
  rewrite H1.
  assert (H2 := sub_word_segments "i" (lit "n") "l" (lit "o") eq_refl
                  ltac:(word_chars) eq_refl _ S1).
  assert (S2 := segmented_replace "i" (lit "n") "l" (lit "o") eq_refl
                  eq_refl ltac:(word_chars) _ false S1).
  change ("i"%char :: lit "n") with (lit "in") in *.
  change ("l"%char :: lit "o") with (lit "lo") in *.
  rewrite H2.
  assert (H3 := sub_word_segments "w" (lit "ith") "t" (lit "ho") eq_refl
                  ltac:(word_chars) eq_refl _ S2).
  assert (S3 := segmented_replace "w" (lit "ith") "t" (lit "ho") eq_refl
                  eq_refl ltac:(word_chars) _ false S2).
  change ("w"%char :: lit "ith") with (lit "with") in *.
  change ("t"%char :: lit "ho") with (lit "tho") in *.
  rewrite H3.
  rewrite !map_map in *.
  rewrite (map_ext _ _ style_word_as_replacements) in *.
  split; [reflexivity | exact S3].
Qed.

Lemma style_word_idempotent (w : str) : style_word (style_word w) = style_word w.
Proof.
  unfold style_word.
  destruct (str_eqb w (lit "to")) eqn:E1; [reflexivity|].
  destruct (str_eqb w (lit "in")) eqn:E2; [reflexivity|].
  destruct (str_eqb w (lit "with")) eqn:E3; [reflexivity|].
  rewrite E1, E2, E3. reflexivity.
Qed.

(** X18. The postposition pass is idempotent: after it, no whole word
    [to], [in] or [with] is left for a second pass to rewrite. *)
Theorem postposition_pass_idempotent (result : str) :
  postposition_pass (postposition_pass result) = postposition_pass result.
Proof.
  pose proof (runs_segmented result false
                (fun H => False_ind _ (Bool.diff_false_true H))) as Hseg.
  destruct (postposition_pass_segments (runs result) Hseg) as [H1 S1].
  destruct (postposition_pass_segments _ S1) as [H2 _].
  rewrite (concat_runs result) in H1.
  rewrite H1, H2, map_map.
  rewrite (map_ext _ _ style_word_idempotent). reflexivity.
Qed.

Lemma search_word_go_cons (alts : list str) (prev : option ascii) (c : ascii)
      (s : str) :
  search_word_go alts prev (c :: s)
  = existsb (fun a => word_lit_at false a prev (c :: s)) alts
    || search_word_go alts (Some c) s.
Proof. reflexivity. Qed.

Lemma search_word_go_app (alts : list str) (a b : str) :
  forall prev,
    search_word_go alts (last_or prev a) b = true ->
    search_word_go alts prev (a ++ b) = true.
Proof.
  induction a as [|c a IH]; intros prev H; [exact H|].
  change ((c :: a) ++ b) with (c :: (a ++ b)).
  rewrite search_word_go_cons. rewrite (IH (Some c) H). apply orb_true_r.
Qed.

Lemma search_ra_suffix (alts : list str) (prev : option ascii) (rest : str) :
  In (lit "ra") alts ->
  opt_word (hd_error rest) = false ->
  search_word_go alts prev (lit " ra" ++ rest) = true.
Proof.
  intros Hin Hrest.
  change (lit " ra" ++ rest) with (" "%char :: "r"%char :: "a"%char :: rest).
  rewrite search_word_go_cons, search_word_go_cons.
  assert (E : existsb
                (fun a => word_lit_at false a (Some " "%char)
                            ("r"%char :: "a"%char :: rest)) alts = true).
  { apply existsb_exists. exists (lit "ra"). split; [exact Hin|].
    unfold word_lit_at, boundary. simpl. unfold boundary. rewrite Hrest.
    reflexivity. }
  rewrite E. rewrite orb_true_r. reflexivity.
Qed.

Lemma contains_question_split (r : str) :
  contains (lit "?") r = true -> exists a b, r = a ++ "?"%char :: b.
Proof.
  change (lit "?") with ["?"%char].
  induction r as [|c r IH]; [discriminate|].
  cbn [contains prefix_eqb]. intros H. apply orb_true_iff in H.
  destruct H as [H | H].
  - rewrite andb_true_r in H. apply Ascii.eqb_eq in H. subst c.
    exists [], r. reflexivity.
  - destruct (IH H) as [a [b ->]]. exists (c :: a), b. reflexivity.
Qed.

Lemma contains_app_r (x a b : str) : contains x b = true -> contains x (a ++ b) = true.
Proof.
  intros H. induction a as [|c a IH]; [exact H|].
  simpl. rewrite IH. apply orb_true_r.
Qed.

Lemma contains_question_app (a b : str) :
  contains (lit "?") (a ++ b) = contains (lit "?") a || contains (lit "?") b.
Proof.
  change (lit "?") with ["?"%char].
  induction a as [|c a IH]; [reflexivity|].
  cbn [app contains prefix_eqb]. rewrite IH. rewrite orb_assoc. reflexivity.
Qed.

(** X19. The slang pass is idempotent: a second pass finds the [ra] that
    the first one has put and adds nothing more. *)
Theorem slang_pass_idempotent (result : str) :
  slang_pass (slang_pass result) = slang_pass result.
Proof.
  remember (slang_pass result) as r eqn:Er.
  unfold slang_pass in Er.
  destruct (contains (lit "?") result) eqn:Eq.
  - destruct (negb (search_word [lit "ra"; lit "rey"; lit "bro"] result)) eqn:En.
    + destruct (contains_question_split result Eq) as [a [b ->]].
      unfold replace_char in Er. rewrite flat_map_app in Er.
      cbn [flat_map] in Er. rewrite Ascii.eqb_refl in Er.
      subst r.
      match goal with
      | |- slang_pass (?fa ++ lit " ra?" ++ ?fb) = _ =>
          assert (Hc : contains (lit "?") (fa ++ lit " ra?" ++ fb) = true)
            by (apply contains_app_r; reflexivity);
          assert (Hs : search_word [lit "ra"; lit "rey"; lit "bro"]
                         (fa ++ lit " ra?" ++ fb) = true)
            by (unfold search_word; apply search_word_go_app;
                apply (search_ra_suffix _ _ ("?"%char :: fb));
                [left; reflexivity | reflexivity])
      end.
      unfold slang_pass. rewrite Hc, Hs. reflexivity.
    + subst r. unfold slang_pass. rewrite Eq, En. reflexivity.
  - destruct ((length (split result) <=? 7)
              && negb (search_word [lit "ra"; lit "rey"] result)) eqn:Ec.
    + subst r.
      assert (Hc : contains (lit "?") (result ++ lit " ra") = false)
        by (rewrite contains_question_app, Eq; reflexivity).
      assert (Hs : search_word [lit "ra"; lit "rey"] (result ++ lit " ra") = true).
      { unfold search_word. apply search_word_go_app.
        rewrite <- (app_nil_r (lit " ra")).
        apply search_ra_suffix; [left; reflexivity | reflexivity]. }
      unfold slang_pass. rewrite Hc, Hs, andb_false_r. reflexivity.
    + subst r. unfold slang_pass. rewrite Eq, Ec. reflexivity.
Qed.

(** ** Capitalization inside the converter *)




(** ** The stages of the dictionary builder *)

Lemma forallb_In {A : Type} (f : A -> bool) (l : list A) (x : A) :
  forallb f l = true -> In x l -> f x = true.
Proof. intros H. apply (proj1 (forallb_forall f l) H). Qed.

(** X21. In the dictionary of the builder no stage undoes an earlier
    one: every entry of [base], of [fixed_phrases] and every kept noun
    is in the final dictionary with its own value, and for every verb of
    [verb_bank] the verb and its derived keys carry the forms of that
    very verb, no later verb having overwritten them. *)
Theorem builder_stages_kept (k v : string) (n : string) (verb : string)
        (forms : verb_forms) :
  let final := build_tenglish_dictionary in
  (In (k, v) base \/ In (k, v) fixed_phrases -> dict_find final (lit k) = Some (lit v))
  /\ (In n keep_nouns -> dict_find final (lit n) = Some (lit n))
  /\ (In (verb, forms) verb_bank ->
      let root := lit (v1 forms) in
      dict_find final (lit verb) = Some root
      /\ dict_find final (lit verb ++ lit "ing") = Some (lit (ing forms))
      /\ dict_find final (lit verb ++ lit "ed") = Some (lit (ed forms))
      /\ dict_find final (lit "will " ++ lit verb) = Some (lit (will forms))
      /\ dict_find final (lit "can " ++ lit verb) = Some (root ++ lit " galanu")
      /\ dict_find final (lit "cannot " ++ lit verb) = Some (root ++ lit " ledu")
      /\ dict_find final (lit "can't " ++ lit verb) = Some (root ++ lit " ledu")
      /\ dict_find final (lit "want to " ++ lit verb) = Some (root ++ lit " kavali")
      /\ dict_find final (lit "need to " ++ lit verb) = Some (root ++ lit " kavali")
      /\ dict_find final (lit "have to " ++ lit verb) = Some (root ++ lit " kavali")
      /\ dict_find final (lit "must " ++ lit verb) = Some (root ++ lit " tappadu")
      /\ dict_find final (lit "please " ++ lit verb) = Some (lit "please " ++ root)).
Proof.
  intros final. unfold final. rewrite <- W_eq.
  pose (same := fun (key value : str) =>
                  match dict_find W key with
                  | Some x => str_eqb x value
                  | None => false
                  end).
  assert (Hsame : forall key value,
             same key value = true -> dict_find W key = Some value).
  { intros key value H. unfold same in H.
    destruct (dict_find W key); [|discriminate].
    apply str_eqb_eq in H. congruence. }
  split; [|split].
  - intros H. apply Hsame.
    assert (Hb : forallb (fun kv => same (lit (fst kv)) (lit (snd kv)))
                         (base ++ fixed_phrases) = true)
      by (vm_compute; reflexivity).
    apply (forallb_In _ _ (k, v) Hb). apply in_or_app. exact H.
  - intros H. apply Hsame.
    assert (Hb : forallb (fun x => same (lit x) (lit x)) keep_nouns = true)
      by (vm_compute; reflexivity).
    apply (forallb_In _ _ n Hb H).
  - intros H.
    assert (Hb : forallb
                   (fun e =>
                      let vb := lit (fst e) in
                      let f := snd e in
                      let r := lit (v1 f) in
                      same vb r
                      && same (vb ++ lit "ing") (lit (ing f))
                      && same (vb ++ lit "ed") (lit (ed f))
                      && same (lit "will " ++ vb) (lit (will f))
                      && same (lit "can " ++ vb) (r ++ lit " galanu")
                      && same (lit "cannot " ++ vb) (r ++ lit " ledu")
                      && same (lit "can't " ++ vb) (r ++ lit " ledu")
                      && same (lit "want to " ++ vb) (r ++ lit " kavali")
                      && same (lit "need to " ++ vb) (r ++ lit " kavali")
                      && same (lit "have to " ++ vb) (r ++ lit " kavali")
                      && same (lit "must " ++ vb) (r ++ lit " tappadu")
                      && same (lit "please " ++ vb) (lit "please " ++ r))
                   verb_bank = true) by (vm_compute; reflexivity).
    pose proof (forallb_In _ _ (verb, forms) Hb H) as Hv. cbv zeta in Hv.
    cbn [fst snd] in Hv.
    repeat (apply andb_prop in Hv; destruct Hv as [Hv ?]).
    repeat split; apply Hsame; assumption.
Qed.

Local Open Scope string_scope.

Lemma builder_stages_kept_witness :
  (In ("never", "eppudu kaadu") base \/ In ("never", "eppudu kaadu") fixed_phrases)
  /\ dict_find build_tenglish_dictionary (lit "never") = Some (lit "eppudu kaadu")
  /\ In "home" keep_nouns
  /\ dict_find build_tenglish_dictionary (lit "home") = Some (lit "home")
  /\ In ("see", {| v1 := "choodu"; ing := "chustunna"; ed := "chusaa";
                   will := "chustaa" |}) verb_bank
  /\ dict_find build_tenglish_dictionary (lit "will see") = Some (lit "chustaa").
Proof.
  assert (H1 : In ("never", "eppudu kaadu") base
               \/ In ("never", "eppudu kaadu") fixed_phrases).
  { left. unfold base. simpl.
    repeat (first [left; reflexivity | right]). }
  assert (H2 : In "home" keep_nouns).
  { unfold keep_nouns. simpl.
    repeat (first [left; reflexivity | right]). }
  assert (H3 : In ("see", {| v1 := "choodu"; ing := "chustunna"; ed := "chusaa";
                            will := "chustaa" |}) verb_bank).
  { unfold verb_bank. simpl.
    repeat (first [left; reflexivity | right]). }
  pose proof (builder_stages_kept "never" "eppudu kaadu" "home" "see"
                {| v1 := "choodu"; ing := "chustunna"; ed := "chusaa";
                   will := "chustaa" |}) as [Ha [Hb Hc]].
  split; [exact H1 | split; [exact (Ha H1) | split; [exact H2 | split;
    [exact (Hb H2) | split; [exact H3|]]]]].
  destruct (Hc H3) as [_ [_ [_ [Hw _]]]]. exact Hw.
Defined.

Local Close Scope string_scope.

(** ** The polite ending *)

Lemma forallb_isspace_rev (b : str) :
  forallb isspace b = true -> forallb isspace (rev b) = true.
Proof.
  intros H. apply forallb_forall. intros c Hc. apply in_rev in Hc.
  revert c Hc. apply forallb_forall. exact H.
Qed.

Lemma strip_sandwich (a m b : str) :
  forallb isspace a = true -> forallb isspace b = true ->
  starts_with_space m = false -> starts_with_space (rev m) = false ->
  strip (a ++ m ++ b) = m.
Proof.
  intros Ha Hb H1 H2. unfold strip. rewrite (dropwhile_app_all _ _ _ Ha).
  destruct m as [|c m].
  - simpl. rewrite (dropwhile_all isspace b Hb). reflexivity.
  - assert (E : dropwhile isspace ((c :: m) ++ b) = (c :: m) ++ b)
      by (apply dropwhile_fixed; exact H1).
    rewrite E, rev_app_distr.
    rewrite (dropwhile_app_all _ _ _ (forallb_isspace_rev b Hb)).
    rewrite (dropwhile_fixed _ H2). apply rev_involutive.
Qed.

(** A string is blank or a core between two whitespace margins, the core
    ending with a character that is not whitespace. *)
Lemma margins (r : str) :
  forallb isspace r = true
  \/ exists a m e b,
       r = a ++ (m ++ [e]) ++ b
       /\ forallb isspace a = true /\ forallb isspace b = true
       /\ isspace e = false /\ starts_with_space (m ++ [e]) = false.
Proof.
  destruct (dropwhile_split isspace r) as [a [Ea Ha]].
  destruct (dropwhile_split isspace (rev (dropwhile isspace r))) as [b [Eb Hb]].
  destruct (dropwhile isspace (rev (dropwhile isspace r))) as [|e t] eqn:Ed.
  - left. rewrite app_nil_r in Eb.
    assert (E : dropwhile isspace r = rev b)
      by (rewrite <- (rev_involutive (dropwhile isspace r)), Eb; reflexivity).
    rewrite Ea, E, forallb_app, Ha. apply forallb_isspace_rev, Hb.
  - right. exists a, (rev t), e, (rev b).
    assert (E : dropwhile isspace r = (rev t ++ [e]) ++ rev b).
    { rewrite <- (rev_involutive (dropwhile isspace r)), Eb, rev_app_distr.
      reflexivity. }
    split; [rewrite Ea at 1; rewrite E; reflexivity|].
    split; [exact Ha|]. split; [apply forallb_isspace_rev, Hb|].
    split; [apply (dropwhile_head isspace _ e t Ed)|].
    pose proof (dropwhile_starts r) as Hs. rewrite E in Hs.
    destruct (rev t ++ [e]) as [|x y] eqn:Ex; [reflexivity | exact Hs].
Qed.

Lemma starts_with_space_last (m : str) (e : ascii) :
  isspace e = false -> starts_with_space (rev (m ++ [e])) = false.
Proof. intros He. rewrite rev_app_distr. exact He. Qed.

Lemma collapse_spaces_split (x y : str) :
  starts_with_space y = false ->
  collapse_spaces (x ++ y) = collapse_spaces x ++ collapse_spaces y.
Proof.
  intros Hy. induction x as [|c x IH]; [reflexivity|].
  cbn [app collapse_spaces]. destruct (isspace c).
  - destruct x as [|d x'].
    + destruct y as [|d y']; [reflexivity|].
      cbn [app]. simpl in Hy. rewrite Hy. reflexivity.
    + cbn [app] in *. destruct (isspace d); [exact IH | rewrite IH; reflexivity].
  - rewrite IH. reflexivity.
Qed.

Lemma collapse_spaces_blank (a : str) :
  forallb isspace a = true ->
  forallb isspace (collapse_spaces a) = true.
Proof.
  induction a as [|c a IH]; [reflexivity|].
  intros H. cbn [forallb] in H. apply andb_prop in H. destruct H as [Hc Ha].
  cbn [collapse_spaces]. rewrite Hc. destruct a as [|d a']; [reflexivity|].
  destruct (isspace d); [apply IH, Ha|].
  cbn [forallb]. rewrite (IH Ha). reflexivity.
Qed.

Lemma collapse_spaces_core (m : str) (e : ascii) :
  isspace e = false -> starts_with_space (m ++ [e]) = false ->
  collapse_spaces (m ++ [e]) = collapse_spaces m ++ [e]
  /\ starts_with_space (collapse_spaces m ++ [e]) = false.
Proof.
  intros He Hs.
  assert (E : collapse_spaces (m ++ [e]) = collapse_spaces m ++ [e]).
  { rewrite collapse_spaces_split by exact He.
    cbn [collapse_spaces]. rewrite He. reflexivity. }
  split; [exact E|]. rewrite <- E.
  destruct m as [|c m]; [simpl; rewrite He; exact He|].
  simpl in Hs. cbn [app collapse_spaces]. rewrite Hs. exact Hs.
Qed.

(** [normalize_spaces] of a core between whitespace margins. *)
Lemma normalize_spaces_margins (a m b : str) (e : ascii) :
  forallb isspace a = true -> forallb isspace b = true ->
  isspace e = false -> starts_with_space (m ++ [e]) = false ->
  normalize_spaces (a ++ (m ++ [e]) ++ b) = collapse_spaces (m ++ [e]).
Proof.
  intros Ha Hb He Hs. unfold normalize_spaces.
  assert (H1 : starts_with_space ((m ++ [e]) ++ b) = false).
  { destruct (m ++ [e]) as [|x y] eqn:E; [|exact Hs].
    destruct m; discriminate. }
  rewrite (collapse_spaces_split a _ H1).
  assert (H2 : collapse_spaces ((m ++ [e]) ++ b)
               = collapse_spaces (m ++ [e]) ++ collapse_spaces b).
  { rewrite <- app_assoc.
    rewrite (collapse_spaces_split m ([e] ++ b)) by exact He.
    rewrite (collapse_spaces_split m [e]) by exact He.
    rewrite <- app_assoc. f_equal.
    cbn [app collapse_spaces]. rewrite He. reflexivity. }
  rewrite H2.
  destruct (collapse_spaces_core m e He Hs) as [En Hn].
  rewrite En. apply strip_sandwich.
  - apply collapse_spaces_blank, Ha.
  - apply collapse_spaces_blank, Hb.
  - exact Hn.
  - apply starts_with_space_last, He.
Qed.

Lemma normalize_spaces_blank (r : str) :
  forallb isspace r = true -> normalize_spaces r = [].
Proof.
  intros H. unfold normalize_spaces.
  pose proof (is_empty_strip (collapse_spaces r)) as E.
  rewrite (collapse_spaces_blank r H) in E.
  destruct (strip (collapse_spaces r)); [reflexivity | discriminate].
Qed.

(** *** The removal of spaces before punctuation, piecewise *)

Lemma punct_after_spaces_app (x y : str) :
  starts_with_punct (dropwhile isspace y) = false ->
  starts_with_punct (dropwhile isspace (x ++ y))
  = starts_with_punct (dropwhile isspace x).
Proof.
  intros Hy. induction x as [|c x IH]; [exact Hy|].
  cbn [app dropwhile]. destruct (isspace c); [exact IH | reflexivity].
Qed.

Lemma clean_punct_spacing_split (x y : str) :
  starts_with_punct (dropwhile isspace y) = false ->
  clean_punct_spacing (x ++ y) = clean_punct_spacing x ++ clean_punct_spacing y.
Proof.
  intros Hy. induction x as [|c x IH]; [reflexivity|].
  cbn [app clean_punct_spacing]. rewrite (punct_after_spaces_app x y Hy), IH.
  destruct (isspace c && _); reflexivity.
Qed.

Lemma clean_punct_spacing_blank (b : str) :
  forallb isspace b = true -> clean_punct_spacing b = b.
Proof.
  induction b as [|c b IH]; [reflexivity|].
  intros H. cbn [forallb] in H. apply andb_prop in H. destruct H as [Hc Hb].
  cbn [clean_punct_spacing]. rewrite (dropwhile_all isspace b Hb), (IH Hb).
  rewrite andb_false_r. reflexivity.
Qed.

Lemma clean_punct_spacing_margin (a s : str) :
  forallb isspace a = true ->
  exists a', clean_punct_spacing (a ++ s) = a' ++ clean_punct_spacing s
             /\ forallb isspace a' = true.
Proof.
  induction a as [|c a IH]; [exists []; split; reflexivity|].
  intros H. cbn [forallb] in H. apply andb_prop in H. destruct H as [Hc Ha].
  destruct (IH Ha) as [a' [E Ha']].
  cbn [app clean_punct_spacing]. destruct (isspace c && _).
  - exists a'. split; assumption.
  - exists (c :: a'). split; [rewrite E; reflexivity|].
    cbn [forallb]. rewrite Hc. exact Ha'.
Qed.

Lemma clean_punct_spacing_core (m : str) (e : ascii) :
  isspace e = false -> starts_with_space (m ++ [e]) = false ->
  exists n, clean_punct_spacing (m ++ [e]) = n ++ [e]
            /\ starts_with_space (n ++ [e]) = false.
Proof.
  intros He Hs.
  assert (H : exists n, clean_punct_spacing (m ++ [e]) = n ++ [e]).
  { clear Hs. induction m as [|c m [n En]].
    - exists []. simpl. rewrite He. reflexivity.
    - cbn [app clean_punct_spacing]. destruct (isspace c && _).
      + exists n. exact En.
      + exists (c :: n). rewrite En. reflexivity. }
  destruct H as [n En]. exists n. split; [exact En|]. rewrite <- En.
  destruct m as [|c m]; [simpl; rewrite He; exact He|].
  simpl in Hs. cbn [app clean_punct_spacing]. rewrite Hs. exact Hs.
Qed.

Lemma search_letter_at_end_blank (b : str) :
  forallb isspace b = true -> search_letter_at_end b = false.
Proof.
  induction b as [|c b IH]; [reflexivity|].
  intros H. cbn [forallb] in H. apply andb_prop in H. destruct H as [Hc Hb].
  cbn [search_letter_at_end]. rewrite (IH Hb), orb_false_r.
  assert (E : is_letter_or_apostrophe c = false).
  { revert Hc. destruct c as [[] [] [] [] [] [] [] []]; vm_compute; congruence. }
  rewrite E. reflexivity.
Qed.

Lemma search_letter_at_end_margins (x b : str) (e : ascii) :
  forallb isspace b = true -> isspace e = false ->
  search_letter_at_end (x ++ e :: b) = is_letter_or_apostrophe e.
Proof.
  intros Hb He. induction x as [|c x IH].
  - cbn [app search_letter_at_end].
    rewrite Hb, (search_letter_at_end_blank b Hb), andb_true_r, orb_false_r.
    reflexivity.
  - cbn [app search_letter_at_end]. rewrite IH.
    assert (E : forallb isspace (x ++ e :: b) = false).
    { rewrite forallb_app. cbn [forallb]. rewrite He.
      apply andb_false_r. }
    rewrite E, andb_false_r. reflexivity.
Qed.

Lemma letter_not_punct (e : ascii) :
  is_letter_or_apostrophe e = true -> is_punct e = false.
Proof. destruct e as [[] [] [] [] [] [] [] []]; vm_compute; congruence. Qed.

Lemma ends_with_letter_last (n : str) (e : ascii) :
  ends_with_letter (n ++ [e]) = is_letter_or_apostrophe e.
Proof. unfold ends_with_letter. rewrite rev_app_distr. reflexivity. Qed.

(** The cleanup after the polite pass, on any string [r]: the cleaned and
    normalized [r] ends with a letter or apostrophe exactly when the
    polite pass fires, and then the pass adds [" andi"] to it. *)
Lemma polite_pass_cleanup (r : str) :
  let plain := normalize_spaces (clean_punct_spacing r) in
  ends_with_letter plain = search_letter_at_end r
  /\ normalize_spaces (clean_punct_spacing (polite_pass r))
     = (if search_letter_at_end r then plain ++ lit " andi" else plain).
Proof.
  intros plain. unfold plain, polite_pass.
  destruct (margins r) as [Hr | [a [m [e [b [Er [Ha [Hb [He Hs]]]]]]]]].
  - rewrite (search_letter_at_end_blank r Hr), (clean_punct_spacing_blank r Hr),
      (normalize_spaces_blank r Hr). split; reflexivity.
  - assert (Hsearch : search_letter_at_end r = is_letter_or_apostrophe e).
    { rewrite Er.
      replace (a ++ (m ++ [e]) ++ b) with ((a ++ m) ++ e :: b)
        by (rewrite <- !app_assoc; reflexivity).
      apply search_letter_at_end_margins; assumption. }
    assert (Hstrip : strip r = m ++ [e]).
    { rewrite Er. apply strip_sandwich; try assumption.
      apply starts_with_space_last, He. }
    destruct (clean_punct_spacing_core m e He Hs) as [n [En Hn]].
    assert (Hplain : normalize_spaces (clean_punct_spacing r)
                     = collapse_spaces (n ++ [e])).
    { rewrite Er.
      destruct (clean_punct_spacing_margin a ((m ++ [e]) ++ b) Ha)
        as [a' [Ea' Ha']].
      rewrite Ea'.
      rewrite (clean_punct_spacing_split (m ++ [e]) b)
        by (rewrite (dropwhile_all isspace b Hb); reflexivity).
      rewrite (clean_punct_spacing_blank b Hb), En.
      apply normalize_spaces_margins; assumption. }
    destruct (collapse_spaces_core n e He Hn) as [Ek Hk].
    set (k := collapse_spaces n) in *.
    rewrite Hplain, Ek, ends_with_letter_last, Hsearch. split; [reflexivity|].
    destruct (is_letter_or_apostrophe e) eqn:Hl.
    + rewrite Hstrip.
      assert (Ec : clean_punct_spacing ((m ++ [e]) ++ lit " andi")
                   = (n ++ [e]) ++ lit " andi").
      { rewrite clean_punct_spacing_split by reflexivity. rewrite En.
        reflexivity. }
      rewrite Ec. unfold normalize_spaces.
      assert (Eco : collapse_spaces ((n ++ [e]) ++ lit " andi")
                    = (k ++ [e]) ++ lit " andi").
      { rewrite <- !app_assoc.
        rewrite (collapse_spaces_split n ([e] ++ lit " andi")) by exact He.
        cbn [app collapse_spaces]. rewrite He. reflexivity. }
      rewrite Eco. apply strip_fixed.
      * destruct (k ++ [e]) as [|x y] eqn:E; [destruct k; discriminate|].
        exact Hk.
      * rewrite rev_app_distr. reflexivity.
    + rewrite Hplain. exact Ek.
Qed.

(** X22. The polite ending, end to end, for every dictionary and
    keep-English set: the output with [polite_mode] on is the output with
    [polite_mode] off followed by [" andi"] when that output ends with a
    letter or an apostrophe, and is that very output otherwise (so a text
    whose output ends with a digit or a punctuation mark gets no polite
    ending, and the blank text stays empty). *)
Theorem polite_mode_appends_andi
        (text : str) (telugu_strength : Z)
        (keep_english_nouns add_postpositions add_telangana_slang : bool)
        (word_dict : dict) (keep_english_set : list str) :
  let plain :=
    convert_to_tenglish text telugu_strength keep_english_nouns false
      add_postpositions add_telangana_slang word_dict keep_english_set in
  convert_to_tenglish text telugu_strength keep_english_nouns true
    add_postpositions add_telangana_slang word_dict keep_english_set
  = (if ends_with_letter plain then plain ++ lit " andi" else plain).
Proof.
  intros plain. unfold plain, convert_to_tenglish.
  destruct (is_empty (strip text)); [reflexivity|].
  cbv zeta.
  match goal with
  | |- normalize_spaces (clean_punct_spacing (polite_pass ?r)) = _ =>
      destruct (polite_pass_cleanup r) as [H1 H2]; rewrite H2, H1; reflexivity
  end.
Qed.
